(** * protobuf_comm stream client: a shallow embedding of
      src/libs/protobuf_comm/client.cpp

    The client is a single C++ object whose methods are either called by the
    application (async_connect, disconnect, send) or run as completion
    handlers on the reactor thread (handle_resolve, handle_connect,
    handle_read_header, handle_read_message, handle_write).  Every method
    is embedded as a computation in a small state-and-log monad: the state is
    the object's member variables, the log is the ordered list of what the
    method does to the outside (signals fired, asynchronous operations
    started, socket calls, mutex operations, allocation calls).

    Methods are atomic steps of the model.  The only members shared between
    the callers' threads and the reactor thread are the outbound queue and
    the in-flight flag; every method touches them inside one critical
    section of [outbound_mutex_] at most, and the log records where the
    mutex is taken and released. *)

From Stdlib Require Import NArith ZArith List Bool String Lia.
From Stdlib Require Import Strings.Byte.
Import ListNotations.
Local Open Scope N_scope.

(** ** Plain data *)

(** A raw address; [NULL] is what a failed [malloc]/[realloc] returns. *)
Definition ptr := N.
Definition NULL : ptr := 0.

(** [boost::system::error_code]: a value and a category.  [!err] holds
    exactly when the value is zero. *)
Inductive error_category :=
| system_category
| generic_category
| netdb_category
| misc_category.

Record error_code := mk_error_code {
  ec_value : Z;
  ec_category : error_category
}.

(** [boost::system::error_code()] *)
Definition no_error : error_code := mk_error_code 0 system_category.

(** [errc::make_error_code(errc::not_enough_memory)], ENOMEM *)
Definition not_enough_memory : error_code := mk_error_code 12 generic_category.

(** The test [! err] of the handlers. *)
Definition is_ok (err : error_code) : bool := Z.eqb (ec_value err) 0.

(** [frame_header_t]: the three fields as they sit in memory after the
    header bytes have been read from the wire, that is, in network byte
    order, seen as host integers of a little-endian machine. *)
Record frame_header_t := mk_frame_header {
  component_id : N;
  msg_type : N;
  payload_size : N
}.

(** [ntohs] and [ntohl] on a little-endian host: byte swaps of a 16-bit
    and of a 32-bit word. *)
Definition ntohs (x : N) : N :=
  N.lor (N.shiftl (N.land x 0xff) 8) (N.land (N.shiftr x 8) 0xff).

Definition ntohl (x : N) : N :=
  N.lor (N.lor (N.shiftl (N.land x 0xff) 24)
               (N.shiftl (N.land x 0xff00) 8))
        (N.lor (N.land (N.shiftr x 8) 0xff00)
               (N.land (N.shiftr x 24) 0xff)).

(** [QueueEntry]: the encoded header and the encoded payload of one
    outgoing message (the two asio buffer views point into these). *)
Record QueueEntry := mk_entry {
  frame_header : frame_header_t;
  serialized_message : list byte
}.

(** A resolved endpoint: address and port. *)
Definition endpoint := (N * N)%type.

(** ** The codec collaborator

    [message_register_] lives in another file of the library; the client
    only calls its [serialize] and [deserialize].  They are taken as
    parameters. *)
Class Codec := {
  Message : Type;
  serialize : N -> N -> Message -> frame_header_t * list byte;
  deserialize : frame_header_t -> list byte -> Message
}.

Section Model.
Context {codec : Codec}.

(** ** What a method does to the outside *)
Inductive action :=
| AsyncResolve (host : string) (port : N)
| AsyncConnect (endpoints : list endpoint)
| AsyncReadHeader
| AsyncReadPayload (buf : ptr) (len : N)
| AsyncWrite (entry : QueueEntry)
| SocketShutdown
| SocketClose
| SigConnected
| SigDisconnected (err : error_code)
| SigRcvd (comp_id msg_type : N) (m : Message)
| Lock
| Unlock
| RunAsio
| Delete (entry : QueueEntry)
| Realloc (old : ptr) (size : N).

(** ** The member variables of [ProtobufStreamClient] *)
Record client := mk_client {
  connected_ : bool;
  outbound_active_ : bool;
  outbound_queue_ : list QueueEntry;
  in_data_size_ : N;
  in_data_ : ptr;
  in_frame_header_ : frame_header_t;
  socket_open : bool
}.

Definition set_connected_ (b : bool) (c : client) : client :=
  mk_client b (outbound_active_ c) (outbound_queue_ c) (in_data_size_ c)
            (in_data_ c) (in_frame_header_ c) (socket_open c).

Definition set_outbound_active_ (b : bool) (c : client) : client :=
  mk_client (connected_ c) b (outbound_queue_ c) (in_data_size_ c)
            (in_data_ c) (in_frame_header_ c) (socket_open c).

Definition set_outbound_queue_ (q : list QueueEntry) (c : client) : client :=
  mk_client (connected_ c) (outbound_active_ c) q (in_data_size_ c)
            (in_data_ c) (in_frame_header_ c) (socket_open c).

Definition set_in_data_size_ (n : N) (c : client) : client :=
  mk_client (connected_ c) (outbound_active_ c) (outbound_queue_ c) n
            (in_data_ c) (in_frame_header_ c) (socket_open c).

Definition set_in_data_ (p : ptr) (c : client) : client :=
  mk_client (connected_ c) (outbound_active_ c) (outbound_queue_ c)
            (in_data_size_ c) p (in_frame_header_ c) (socket_open c).

Definition set_in_frame_header_ (h : frame_header_t) (c : client) : client :=
  mk_client (connected_ c) (outbound_active_ c) (outbound_queue_ c)
            (in_data_size_ c) (in_data_ c) h (socket_open c).

Definition set_socket_open (b : bool) (c : client) : client :=
  mk_client (connected_ c) (outbound_active_ c) (outbound_queue_ c)
            (in_data_size_ c) (in_data_ c) (in_frame_header_ c) b.

(** ** The monad: member state threaded, actions logged in order *)
Definition M (A : Type) : Type := client -> A * client * list action.

Definition ret {A} (a : A) : M A := fun c => (a, c, []).

Definition bind {A B} (m : M A) (k : A -> M B) : M B :=
  fun c =>
    let '(a, c1, l1) := m c in
    let '(b, c2, l2) := k a c1 in
    (b, c2, l1 ++ l2).

Definition gets {A} (f : client -> A) : M A := fun c => (f c, c, []).
Definition modify (f : client -> client) : M unit := fun c => (tt, f c, []).
Definition emit (a : action) : M unit := fun c => (tt, c, [a]).

Notation "x <- m ;; k" := (bind m (fun x => k))
  (at level 61, m at next level, right associativity).
Notation "m ;; k" := (bind m (fun _ => k))
  (at level 61, right associativity).

(** The state and the log a method leaves. *)
Definition exec {A} (m : M A) (c : client) : client := snd (fst (m c)).
Definition log {A} (m : M A) (c : client) : list action := snd (m c).

(** ** The methods *)

(** The constructor; [malloc_ret] is what [malloc(1024)] returns. *)
Definition new_client (malloc_ret : ptr) : client :=
  {| connected_ := false;
     outbound_active_ := false;
     outbound_queue_ := [];
     in_data_size_ := 1024;
     in_data_ := malloc_ret;
     in_frame_header_ := mk_frame_header 0 0 0;
     socket_open := false |}.

Definition sig_connected_ : M unit := emit SigConnected.
Definition sig_disconnected_ (err : error_code) : M unit :=
  emit (SigDisconnected err).
Definition sig_rcvd_ (comp_id mtype : N) (m : Message) : M unit :=
  emit (SigRcvd comp_id mtype m).

(** [run_asio]: starts the reactor thread unless it is running. *)
Definition run_asio : M unit := emit RunAsio.

Definition async_connect (host : string) (port : N) : M unit :=
  emit (AsyncResolve host port) ;;
  run_asio.

Definition disconnect_nosig : M unit :=
  emit SocketShutdown ;;
  emit SocketClose ;;
  modify (set_socket_open false) ;;
  modify (set_connected_ false).

Definition disconnect : M unit :=
  disconnect_nosig ;;
  sig_disconnected_ no_error.

Definition start_recv : M unit := emit AsyncReadHeader.

Definition handle_resolve (err : error_code) (endpoint_iterator : list endpoint)
  : M unit :=
  if is_ok err then
    emit (AsyncConnect endpoint_iterator)
  else
    disconnect ;;
    sig_disconnected_ err.

Definition handle_connect (err : error_code) : M unit :=
  if is_ok err then
    modify (set_connected_ true) ;;
    start_recv ;;
    sig_connected_
  else
    disconnect ;;
    sig_disconnected_ err.

(** [realloc_ret] is what the call [realloc(in_data_, to_read)] returns
    when the handler makes it: [NULL] when memory is exhausted. *)
Definition handle_read_header (error : error_code) (realloc_ret : ptr) : M unit :=
  if is_ok error then
    hdr <- gets in_frame_header_ ;;
    let to_read := ntohl (payload_size hdr) in
    size <- gets in_data_size_ ;;
    (if size <? to_read then
       old <- gets in_data_ ;;
       emit (Realloc old to_read) ;;
       let new_data := realloc_ret in
       if negb (new_data =? NULL) then
         modify (set_in_data_size_ to_read) ;;
         modify (set_in_data_ new_data)
       else
         sig_disconnected_ not_enough_memory
     else ret tt) ;;
    buf <- gets in_data_ ;;
    emit (AsyncReadPayload buf to_read)
  else ret tt.

(** [data] is the content of the input buffer when the handler runs. *)
Definition handle_read_message (error : error_code) (data : list byte) : M unit :=
  if is_ok error then
    hdr <- gets in_frame_header_ ;;
    let m := deserialize hdr data in
    let comp_id := ntohs (component_id hdr) in
    let mtype := ntohs (msg_type hdr) in
    sig_rcvd_ comp_id mtype m ;;
    start_recv
  else ret tt.

Definition handle_write (error : error_code) (bytes_transferred : N)
    (entry : QueueEntry) : M unit :=
  emit (Delete entry) ;;
  if is_ok error then
    emit Lock ;;
    q <- gets outbound_queue_ ;;
    match q with
    | front :: rest =>
        modify (set_outbound_queue_ rest) ;;
        emit (AsyncWrite front)
    | [] =>
        modify (set_outbound_active_ false)
    end ;;
    emit Unlock
  else
    sig_disconnected_ error.

Definition new_entry (comp_id mtype : N) (m : Message) : QueueEntry :=
  let '(hdr, bytes) := serialize comp_id mtype m in
  mk_entry hdr bytes.

Definition send (comp_id mtype : N) (m : Message) : M unit :=
  let entry := new_entry comp_id mtype m in
  emit Lock ;;
  active <- gets outbound_active_ ;;
  (if active then
     modify (fun c => set_outbound_queue_ (outbound_queue_ c ++ [entry]) c)
   else
     modify (set_outbound_active_ true) ;;
     emit (AsyncWrite entry) ;;
     run_asio) ;;
  emit Unlock.

(** Modelled from the spec: the accessor [is_connected] of client.h, which
    is not among the sources; the spec calls it a query of a simple flag. *)
Definition is_connected (c : client) : bool := connected_ c.

(** ** The reactor: outstanding operations and their completions

    Every [async_*] call leaves one operation outstanding; the reactor later
    runs its completion handler exactly once.  The application's calls need
    no outstanding operation. *)
Inductive pending_op :=
| PResolve
| PConnect
| PReadHeader
| PReadPayload (buf : ptr) (len : N)
| PWrite (entry : QueueEntry).

Definition frame_header_eq_dec (x y : frame_header_t) : {x = y} + {x <> y}.
Proof. decide equality; apply N.eq_dec. Defined.

Definition QueueEntry_eq_dec (x y : QueueEntry) : {x = y} + {x <> y}.
Proof.
  decide equality.
  - apply (list_eq_dec Byte.byte_eq_dec).
  - apply frame_header_eq_dec.
Defined.

Definition pending_op_eq_dec (x y : pending_op) : {x = y} + {x <> y}.
Proof.
  decide equality; try apply N.eq_dec; apply QueueEntry_eq_dec.
Defined.

(** The operation an action leaves outstanding, if any. *)
Definition issued (a : action) : option pending_op :=
  match a with
  | AsyncResolve _ _ => Some PResolve
  | AsyncConnect _ => Some PConnect
  | AsyncReadHeader => Some PReadHeader
  | AsyncReadPayload buf len => Some (PReadPayload buf len)
  | AsyncWrite entry => Some (PWrite entry)
  | _ => None
  end.

Fixpoint issued_ops (l : list action) : list pending_op :=
  match l with
  | [] => []
  | a :: l' =>
      match issued a with
      | Some op => op :: issued_ops l'
      | None => issued_ops l'
      end
  end.

(** Removes the first occurrence of [op]; [None] when there is none. *)
Fixpoint take (op : pending_op) (l : list pending_op) : option (list pending_op) :=
  match l with
  | [] => None
  | x :: l' =>
      if pending_op_eq_dec op x then Some l'
      else match take op l' with
           | Some r => Some (x :: r)
           | None => None
           end
  end.

Inductive event :=
| CallAsyncConnect (host : string) (port : N)
| CallDisconnect
| CallSend (comp_id mtype : N) (m : Message)
| ResolveDone (err : error_code) (endpoints : list endpoint)
| ConnectDone (err : error_code)
| ReadHeaderDone (err : error_code) (hdr : frame_header_t) (realloc_ret : ptr)
| ReadPayloadDone (err : error_code) (buf : ptr) (len : N) (data : list byte)
| WriteDone (err : error_code) (bytes_transferred : N) (entry : QueueEntry).

(** The outstanding operation an event completes. *)
Definition completes (ev : event) : option pending_op :=
  match ev with
  | ResolveDone _ _ => Some PResolve
  | ConnectDone _ => Some PConnect
  | ReadHeaderDone _ _ _ => Some PReadHeader
  | ReadPayloadDone _ buf len _ => Some (PReadPayload buf len)
  | WriteDone _ _ entry => Some (PWrite entry)
  | _ => None
  end.

(** The method an event runs.  A completed header read has stored the
    header bytes in [in_frame_header_]; a completed connect has left the
    socket open exactly when it succeeded. *)
Definition handler (ev : event) : M unit :=
  match ev with
  | CallAsyncConnect host port => async_connect host port
  | CallDisconnect => disconnect
  | CallSend comp_id mtype m => send comp_id mtype m
  | ResolveDone err endpoints => handle_resolve err endpoints
  | ConnectDone err =>
      modify (set_socket_open (is_ok err)) ;;
      handle_connect err
  | ReadHeaderDone err hdr realloc_ret =>
      modify (set_in_frame_header_ hdr) ;;
      handle_read_header err realloc_ret
  | ReadPayloadDone err _ _ data => handle_read_message err data
  | WriteDone err bytes entry => handle_write err bytes entry
  end.

Record world := mk_world {
  obj : client;
  pending : list pending_op
}.

Definition fire (ev : event) (c : client) (rest : list pending_op)
  : world * list action :=
  let l := log (handler ev) c in
  (mk_world (exec (handler ev) c) (rest ++ issued_ops l), l).

(** One event; [None] when it is a completion of an operation that is not
    outstanding. *)
Definition step (w : world) (ev : event) : option (world * list action) :=
  match completes ev with
  | Some op =>
      match take op (pending w) with
      | Some rest => Some (fire ev (obj w) rest)
      | None => None
      end
  | None => Some (fire ev (obj w) (pending w))
  end.

Fixpoint run (w : world) (evs : list event) : option (world * list action) :=
  match evs with
  | [] => Some (w, [])
  | ev :: evs' =>
      match step w ev with
      | Some (w1, l1) =>
          match run w1 evs' with
          | Some (w2, l2) => Some (w2, l1 ++ l2)
          | None => None
          end
      | None => None
      end
  end.

Definition init (malloc_ret : ptr) : world := mk_world (new_client malloc_ret) [].

Definition reachable (w : world) : Prop :=
  exists malloc_ret evs tr, run (init malloc_ret) evs = Some (w, tr).

(** ** Projections of logs and of event lists *)

Fixpoint writes_of (l : list action) : list QueueEntry :=
  match l with
  | [] => []
  | AsyncWrite e :: l' => e :: writes_of l'
  | _ :: l' => writes_of l'
  end.

Fixpoint disconnects_of (l : list action) : list error_code :=
  match l with
  | [] => []
  | SigDisconnected err :: l' => err :: disconnects_of l'
  | _ :: l' => disconnects_of l'
  end.

Fixpoint payload_reads_of (l : list action) : list (ptr * N) :=
  match l with
  | [] => []
  | AsyncReadPayload buf len :: l' => (buf, len) :: payload_reads_of l'
  | _ :: l' => payload_reads_of l'
  end.

Fixpoint reallocs_of (l : list action) : list (ptr * N) :=
  match l with
  | [] => []
  | Realloc old size :: l' => (old, size) :: reallocs_of l'
  | _ :: l' => reallocs_of l'
  end.

Fixpoint sends_of (evs : list event) : list QueueEntry :=
  match evs with
  | [] => []
  | CallSend comp_id mtype m :: evs' => new_entry comp_id mtype m :: sends_of evs'
  | _ :: evs' => sends_of evs'
  end.

Fixpoint pwrites (l : list pending_op) : list QueueEntry :=
  match l with
  | [] => []
  | PWrite e :: l' => e :: pwrites l'
  | _ :: l' => pwrites l'
  end.

(** No write completion in [evs] reports an error. *)
Fixpoint writes_succeed (evs : list event) : bool :=
  match evs with
  | [] => true
  | WriteDone err _ _ :: evs' => is_ok err && writes_succeed evs'
  | _ :: evs' => writes_succeed evs'
  end.

(** ** The invariant of the outbound side

    At most one write is outstanding; one is outstanding only while the
    in-flight flag is set; entries are queued only while it is set. *)
Definition outbound_inv (w : world) : Prop :=
  (List.length (pwrites (pending w)) <= 1)%nat /\
  (pwrites (pending w) <> [] -> outbound_active_ (obj w) = true) /\
  (outbound_active_ (obj w) = false -> outbound_queue_ (obj w) = []).

(** After a run in which no write failed, the in-flight flag is set only
    while a write is outstanding. *)
Definition drained_inv (w : world) : Prop :=
  pwrites (pending w) = [] -> outbound_active_ (obj w) = false.

(** After a failed write: the flag is set and no write is outstanding. *)
Definition stuck (w : world) : Prop :=
  outbound_active_ (obj w) = true /\ pwrites (pending w) = [].

End Model.

Arguments action {codec}.
Arguments event {codec}.

(** ** Further projections, for the properties of whole runs *)

Section Observations.
Context {codec : Codec}.

(** The entries destroyed, in order. *)
Fixpoint deletes_of (l : list action) : list QueueEntry :=
  match l with
  | [] => []
  | Delete e :: l' => e :: deletes_of l'
  | _ :: l' => deletes_of l'
  end.

(** The number of [connected] notifications. *)
Fixpoint connects_of (l : list action) : nat :=
  match l with
  | [] => O
  | SigConnected :: l' => S (connects_of l')
  | _ :: l' => connects_of l'
  end.

(** The messages dispatched, with their tags, in order. *)
Fixpoint rcvds_of (l : list action) : list (N * N * Message) :=
  match l with
  | [] => []
  | SigRcvd comp_id mtype m :: l' => (comp_id, mtype, m) :: rcvds_of l'
  | _ :: l' => rcvds_of l'
  end.

(** The entries whose write completed, with or without error, in order. *)
Fixpoint write_completions (evs : list event) : list QueueEntry :=
  match evs with
  | [] => []
  | WriteDone _ _ e :: evs' => e :: write_completions evs'
  | _ :: evs' => write_completions evs'
  end.

(** The number of connect completions without error. *)
Fixpoint connects_ok (evs : list event) : nat :=
  match evs with
  | [] => O
  | ConnectDone err :: evs' =>
      if is_ok err then S (connects_ok evs') else connects_ok evs'
  | _ :: evs' => connects_ok evs'
  end.

(** The number of payload-read completions without error. *)
Fixpoint payloads_ok (evs : list event) : nat :=
  match evs with
  | [] => O
  | ReadPayloadDone err _ _ _ :: evs' =>
      if is_ok err then S (payloads_ok evs') else payloads_ok evs'
  | _ :: evs' => payloads_ok evs'
  end.

(** The capacity after an event, from the capacity [cap] before: only a
    header completion without error whose payload size exceeds [cap] calls
    [realloc], and the capacity changes only when that call succeeds. *)
Definition capacity_after (cap : N) (ev : event) : N :=
  match ev with
  | ReadHeaderDone err hdr realloc_ret =>
      let n := ntohl (payload_size hdr) in
      if is_ok err && (cap <? n) && negb (realloc_ret =? NULL) then n else cap
  | _ => cap
  end.

(** The event does not make a [realloc] fail: it is not a header
    completion, or the header read failed, or the payload fits the capacity
    [cap] (no [realloc] is called then, whatever [realloc_ret] is), or the
    [realloc] that is called succeeds. *)
Definition realloc_succeeds_at (cap : N) (ev : event) : bool :=
  match ev with
  | ReadHeaderDone err hdr realloc_ret =>
      negb (is_ok err && (cap <? ntohl (payload_size hdr)))
      || negb (realloc_ret =? NULL)
  | _ => true
  end.

(** No [realloc] fails in [evs], for a client whose capacity is [cap]
    before. *)
Fixpoint reallocs_succeed (cap : N) (evs : list event) : bool :=
  match evs with
  | [] => true
  | ev :: evs' =>
      realloc_succeeds_at cap ev && reallocs_succeed (capacity_after cap ev) evs'
  end.

(** The event gives no method a reason to report a disconnection: it is
    not a call of [disconnect], not a failed resolution, connect or write,
    and it makes no [realloc] fail. *)
Definition uneventful_at (cap : N) (ev : event) : bool :=
  match ev with
  | CallDisconnect => false
  | ResolveDone err _ => is_ok err
  | ConnectDone err => is_ok err
  | WriteDone err _ _ => is_ok err
  | _ => realloc_succeeds_at cap ev
  end.

Fixpoint uneventful (cap : N) (evs : list event) : bool :=
  match evs with
  | [] => true
  | ev :: evs' =>
      uneventful_at cap ev && uneventful (capacity_after cap ev) evs'
  end.

(** The value of [connected_] after [evs], from its value [b] before. *)
Fixpoint connected_after (b : bool) (evs : list event) : bool :=
  match evs with
  | [] => b
  | CallDisconnect :: evs' => connected_after false evs'
  | ResolveDone err _ :: evs' =>
      connected_after (if is_ok err then b else false) evs'
  | ConnectDone err :: evs' => connected_after (is_ok err) evs'
  | _ :: evs' => connected_after b evs'
  end.

(** The outstanding reads among the outstanding operations. *)
Fixpoint preads (l : list pending_op) : list pending_op :=
  match l with
  | [] => []
  | PReadHeader :: l' => PReadHeader :: preads l'
  | PReadPayload buf len :: l' => PReadPayload buf len :: preads l'
  | _ :: l' => preads l'
  end.

Definition is_read (op : pending_op) : bool :=
  match op with
  | PReadHeader | PReadPayload _ _ => true
  | _ => false
  end.

(** The number of read completions, of a header or of a payload, with an
    error. *)
Fixpoint read_failures (evs : list event) : nat :=
  match evs with
  | [] => O
  | ReadHeaderDone err _ _ :: evs' =>
      if is_ok err then read_failures evs' else S (read_failures evs')
  | ReadPayloadDone err _ _ _ :: evs' =>
      if is_ok err then read_failures evs' else S (read_failures evs')
  | _ :: evs' => read_failures evs'
  end.

(** The events of the outbound side: the sends and the write completions. *)
Definition is_outbound (ev : event) : bool :=
  match ev with
  | CallSend _ _ _ | WriteDone _ _ _ => true
  | _ => false
  end.

(** Two worlds with the same outbound side. *)
Definition same_outbound (w1 w2 : world) : Prop :=
  outbound_queue_ (obj w1) = outbound_queue_ (obj w2) /\
  outbound_active_ (obj w1) = outbound_active_ (obj w2) /\
  pwrites (pending w1) = pwrites (pending w2).

(** At most one read is outstanding, and an outstanding payload read goes
    to the current input buffer with a length within its capacity. *)
Definition single_reader (w : world) : Prop :=
  match preads (pending w) with
  | [] => True
  | [PReadHeader] => True
  | [PReadPayload buf len] =>
      buf = in_data_ (obj w) /\ len <= in_data_size_ (obj w)
  | _ => False
  end.

(** [outbound_mutex_] over a log: whether it is held after [l] when it was
    held or not ([held]) before.  [None] when the log takes the mutex while
    it is held, releases it while it is free, starts a write without
    holding it, or fires a signal while holding it. *)
Fixpoint mutex_after (held : bool) (l : list action) : option bool :=
  match l with
  | [] => Some held
  | Lock :: l' => if held then None else mutex_after true l'
  | Unlock :: l' => if held then mutex_after false l' else None
  | AsyncWrite _ :: l' => if held then mutex_after held l' else None
  | SigConnected :: l' => if held then None else mutex_after held l'
  | SigDisconnected _ :: l' => if held then None else mutex_after held l'
  | SigRcvd _ _ _ :: l' => if held then None else mutex_after held l'
  | _ :: l' => mutex_after held l'
  end.

End Observations.

(** ** Concrete data for the examples *)
Module Demo.

(** A codec for the examples: a message is its payload bytes, the header
    carries the two tags and the payload length in network byte order. *)
#[export] Instance codec : Codec := {|
  Message := list byte;
  serialize comp_id mtype m :=
    (mk_frame_header (ntohs comp_id) (ntohs mtype)
                     (ntohl (N.of_nat (List.length m))), m);
  deserialize hdr data := firstn (N.to_nat (ntohl (payload_size hdr))) data
|}.

Definition eof : error_code := mk_error_code 2 misc_category.
Definition host_not_found : error_code := mk_error_code 1 netdb_category.
Definition connection_refused : error_code := mk_error_code 111 system_category.
Definition broken_pipe : error_code := mk_error_code 32 system_category.

(** The header of a frame with tags (1, 3) and a payload of 4096 bytes. *)
Definition hdr4096 : frame_header_t := mk_frame_header 0x0100 0x0300 0x00100000.

(** The header of a frame with tags (1, 3) and a payload of 5 bytes. *)
Definition hdr5 : frame_header_t := mk_frame_header 0x0100 0x0300 0x05000000.

Definition msgA : list byte := [x68; x65; x6c; x6c; x6f].
Definition msgB : list byte := [x77; x6f; x72; x6c; x64].
Definition msgC : list byte := [x21].

Definition entryA : QueueEntry := new_entry 1 2 msgA.
Definition entryB : QueueEntry := new_entry 1 2 msgB.
Definition entryC : QueueEntry := new_entry 1 2 msgC.

Definition server : list endpoint := [(0x7f000001, 4444)].

(** The events that bring a fresh client to an established connection. *)
Definition connect_ok : list event :=
  [CallAsyncConnect "localhost" 4444; ResolveDone no_error server;
   ConnectDone no_error].

(** A freshly constructed client whose first buffer sits at 0x1000. *)
Definition w0 : world := init 0x1000.

(** The connected client, waiting for a header. *)
Definition w_connected : world :=
  mk_world (mk_client true false [] 1024 0x1000 (mk_frame_header 0 0 0) true)
           [PReadHeader].

(** The connected client that has read the header of a 4096-byte frame. *)
Definition w_payload : world :=
  mk_world (mk_client true false [] 4096 0x2000 hdr4096 true)
           [PReadPayload 0x2000 4096].

(** The client after [send A; send B; send C]: A in flight, B and C queued. *)
Definition w_sending : world :=
  mk_world (mk_client false true [entryB; entryC] 1024 0x1000
                      (mk_frame_header 0 0 0) false)
           [PWrite entryA].

(** The same client once the write of A has failed. *)
Definition w_stuck : world :=
  mk_world (mk_client false true [entryB; entryC] 1024 0x1000
                      (mk_frame_header 0 0 0) false)
           [].

(** A connected client that has just read the header of a 5-byte frame. *)
Definition c_hdr5 : client := mk_client true false [] 1024 0x1000 hdr5 true.

(** Three sends by one caller. *)
Definition three_sends : list event :=
  [CallSend 1 2 msgA; CallSend 1 2 msgB; CallSend 1 2 msgC].

(** Three sends by one caller, then the three write completions. *)
Definition abc : list event :=
  three_sends ++
  [WriteDone no_error 13 entryA; WriteDone no_error 13 entryB;
   WriteDone no_error 9 entryC].

Definition abc_result : world * list action :=
  Eval vm_compute in
    match run w0 abc with Some r => r | None => (w0, []) end.

(** A connection that receives a 4096-byte frame and then a 5-byte one. *)
Definition two_frames : list event :=
  connect_ok ++
  [ReadHeaderDone no_error hdr4096 0x2000;
   ReadPayloadDone no_error 0x2000 4096 [];
   ReadHeaderDone no_error hdr5 NULL;
   ReadPayloadDone no_error 0x2000 5 msgB].

Definition two_frames_result : world * list action :=
  Eval vm_compute in
    match run w0 two_frames with Some r => r | None => (w0, []) end.

(** What the application and the reactor do after the write of A failed. *)
Definition after_failure : list event :=
  [CallSend 1 2 msgA; CallDisconnect; CallAsyncConnect "localhost" 4444;
   ResolveDone no_error server; ConnectDone no_error; CallSend 1 2 msgC].

Definition after_failure_result : world * list action :=
  Eval vm_compute in
    match run w_stuck after_failure with Some r => r | None => (w_stuck, []) end.

(** The notifications of a run, in order; [None] when an event of the run
    completes an operation that is not outstanding. *)
Definition notified (r : option (world * list action)) : option (list error_code) :=
  match r with
  | Some (_, l) => Some (disconnects_of l)
  | None => None
  end.




(** A connection that receives a 4096-byte frame and then the header of a
    5-byte one; [realloc] is called once, for the first frame. *)
Definition two_headers : list event :=
  connect_ok ++
  [ReadHeaderDone no_error hdr4096 0x2000;
   ReadPayloadDone no_error 0x2000 4096 [];
   ReadHeaderDone no_error hdr5 NULL].

(** The result of a run of the fresh client [w0]. *)
Definition result_of (evs : list event) : world * list action :=
  match run w0 evs with Some r => r | None => (w0, []) end.

Definition three_sends_result : world * list action :=
  Eval vm_compute in result_of three_sends.

(** A connection that reads one header; then the payload read fails. *)
Definition frame_then_eof : list event :=
  connect_ok ++
  [ReadHeaderDone no_error hdr4096 0x2000; ReadPayloadDone eof 0x2000 4096 []].

Definition frame_then_eof_result : world * list action :=
  Eval vm_compute in result_of frame_then_eof.

(** A connection that has read the header of a 4096-byte frame. *)
Definition header_read : list event :=
  connect_ok ++ [ReadHeaderDone no_error hdr4096 0x2000].

Definition header_read_result : world * list action :=
  Eval vm_compute in result_of header_read.

(** Sends mixed with a connection set-up and a disconnection. *)
Definition mixed : list event :=
  [CallSend 1 2 msgA] ++ connect_ok ++
  [CallSend 1 2 msgB; WriteDone no_error 13 entryA; CallDisconnect;
   WriteDone broken_pipe 0 entryB; CallSend 1 2 msgC].

Definition mixed_result : world * list action :=
  Eval vm_compute in result_of mixed.

Definition two_headers_result : world * list action :=
  Eval vm_compute in result_of two_headers.


Definition mixed_outbound_result : world * list action :=
  Eval vm_compute in result_of (filter is_outbound mixed).

End Demo.

(** * Properties *)

Section Properties.
Context {codec : Codec}.

(** Unfolds a method down to the pair of its final state and its log. *)
Ltac unfold_method :=
  unfold exec, log, handler, send, handle_write, handle_read_message,
    handle_read_header, handle_connect, handle_resolve, start_recv,
    disconnect, disconnect_nosig, async_connect, run_asio,
    sig_rcvd_, sig_disconnected_, sig_connected_,
    bind, gets, modify, emit, ret in *.

(** ** Byte order *)

Lemma ntohl_4096 : ntohl 0x00100000 = 4096.
Proof. reflexivity. Qed.

(** ** Error paths of the completion handlers *)

Lemma handle_read_header_error (c : client) (err : error_code) (r : ptr) :
  is_ok err = false ->
  handle_read_header err r c = (tt, c, []).
Proof. intros H. unfold handle_read_header. rewrite H. reflexivity. Qed.

Lemma handle_read_message_error (c : client) (err : error_code) (data : list byte) :
  is_ok err = false ->
  handle_read_message err data c = (tt, c, []).
Proof. intros H. unfold handle_read_message. rewrite H. reflexivity. Qed.

Lemma handle_resolve_error (c : client) (err : error_code) (eps : list endpoint) :
  is_ok err = false ->
  log (handle_resolve err eps) c =
    [SocketShutdown; SocketClose; SigDisconnected no_error; SigDisconnected err].
Proof. intros H. unfold_method. rewrite H. reflexivity. Qed.

Lemma handle_connect_error (c : client) (err : error_code) :
  is_ok err = false ->
  log (handle_connect err) c =
    [SocketShutdown; SocketClose; SigDisconnected no_error; SigDisconnected err].
Proof. intros H. unfold_method. rewrite H. reflexivity. Qed.

Lemma handle_write_error (c : client) (err : error_code) (n : N) (e : QueueEntry) :
  is_ok err = false ->
  handle_write err n e c = (tt, c, [Delete e; SigDisconnected err]).
Proof. intros H. unfold_method. rewrite H. reflexivity. Qed.

(** The header handler when the buffer has to grow and [realloc] fails:
    the signal is fired, nothing else changes, and the payload read is
    started on the old buffer with the full length. *)
Lemma handle_read_header_exhausted (c : client) (err : error_code) :
  is_ok err = true ->
  in_data_size_ c < ntohl (payload_size (in_frame_header_ c)) ->
  handle_read_header err NULL c =
    (tt, c,
     [Realloc (in_data_ c) (ntohl (payload_size (in_frame_header_ c)));
      SigDisconnected not_enough_memory;
      AsyncReadPayload (in_data_ c) (ntohl (payload_size (in_frame_header_ c)))]).
Proof.
  intros Hok Hlt. unfold_method. rewrite Hok.
  apply N.ltb_lt in Hlt. rewrite Hlt. reflexivity.
Qed.

(** The header handler when the buffer has to grow and [realloc] succeeds. *)
Lemma handle_read_header_grow (c : client) (err : error_code) (r : ptr) :
  is_ok err = true ->
  r <> NULL ->
  in_data_size_ c < ntohl (payload_size (in_frame_header_ c)) ->
  let n := ntohl (payload_size (in_frame_header_ c)) in
  handle_read_header err r c =
    (tt, set_in_data_ r (set_in_data_size_ n c),
     [Realloc (in_data_ c) n; AsyncReadPayload r n]).
Proof.
  intros Hok Hr Hlt n. unfold_method. rewrite Hok.
  apply N.ltb_lt in Hlt. rewrite Hlt.
  apply N.eqb_neq in Hr. rewrite Hr. reflexivity.
Qed.

(** The header handler when the payload fits. *)
Lemma handle_read_header_fits (c : client) (err : error_code) (r : ptr) :
  is_ok err = true ->
  ntohl (payload_size (in_frame_header_ c)) <= in_data_size_ c ->
  handle_read_header err r c =
    (tt, c,
     [AsyncReadPayload (in_data_ c) (ntohl (payload_size (in_frame_header_ c)))]).
Proof.
  intros Hok Hle. unfold_method. rewrite Hok.
  apply N.ltb_ge in Hle. rewrite Hle. reflexivity.
Qed.

(** The capacity after a header completion, in every case. *)
Lemma handle_read_header_size (c : client) (err : error_code) (r : ptr) :
  let n := ntohl (payload_size (in_frame_header_ c)) in
  in_data_size_ (exec (handle_read_header err r) c) =
    if is_ok err && (in_data_size_ c <? n) && negb (r =? NULL)
    then n else in_data_size_ c.
Proof.
  unfold_method.
  destruct (is_ok err); simpl; [|reflexivity].
  destruct (in_data_size_ c <? ntohl (payload_size (in_frame_header_ c)));
    simpl; [|reflexivity].
  destruct (r =? NULL); reflexivity.
Qed.

(** ** What each event does to the outbound side and to the capacity *)

Ltac split_tests :=
  repeat match goal with
         | |- context [if ?b then _ else _] => destruct b eqn:?; simpl
         | |- context [match ?q with [] => _ | _ :: _ => _ end] =>
             destruct q eqn:?; simpl
         end.

Lemma handler_outbound (ev : event) (c : client) :
  let c' := exec (handler ev) c in
  let l := log (handler ev) c in
  match ev with
  | CallSend comp_id mtype m =>
      outbound_active_ c' = true /\
      if outbound_active_ c
      then writes_of l = [] /\
           outbound_queue_ c' = outbound_queue_ c ++ [new_entry comp_id mtype m]
      else writes_of l = [new_entry comp_id mtype m] /\
           outbound_queue_ c' = outbound_queue_ c
  | WriteDone err _ _ =>
      if is_ok err then
        match outbound_queue_ c with
        | front :: rest =>
            writes_of l = [front] /\
            outbound_active_ c' = outbound_active_ c /\
            outbound_queue_ c' = rest
        | [] =>
            writes_of l = [] /\
            outbound_active_ c' = false /\
            outbound_queue_ c' = []
        end
      else
        writes_of l = [] /\
        outbound_active_ c' = outbound_active_ c /\
        outbound_queue_ c' = outbound_queue_ c
  | _ =>
      writes_of l = [] /\
      outbound_active_ c' = outbound_active_ c /\
      outbound_queue_ c' = outbound_queue_ c
  end.
Proof.
  destruct ev; unfold_method; simpl; split_tests; auto.
Qed.

Lemma handler_capacity (ev : event) (c : client) :
  in_data_size_ c <= in_data_size_ (exec (handler ev) c).
Proof.
  destruct ev; try (unfold_method; simpl; split_tests; simpl; lia).
  unfold handler, exec, bind, modify; simpl.
  pose proof (handle_read_header_size (set_in_frame_header_ hdr c) err realloc_ret) as H.
  unfold exec in H; simpl in H.
  destruct (handle_read_header err realloc_ret (set_in_frame_header_ hdr c))
    as [[u c1] l1] eqn:E; simpl in *.
  rewrite H.
  destruct (is_ok err); simpl; [|lia].
  destruct (in_data_size_ c <? ntohl (payload_size hdr)) eqn:Hlt; simpl; [|lia].
  apply N.ltb_lt in Hlt.
  destruct (realloc_ret =? NULL); simpl; lia.
Qed.

(** ** Outstanding operations *)

Lemma pwrites_app (l1 l2 : list pending_op) :
  pwrites (l1 ++ l2) = pwrites l1 ++ pwrites l2.
Proof.
  induction l1 as [|x l1 IH]; simpl; [reflexivity|].
  destruct x; simpl; rewrite ?IH; reflexivity.
Qed.

Lemma pwrites_issued (l : list action) :
  pwrites (issued_ops l) = writes_of l.
Proof.
  induction l as [|a l IH]; simpl; [reflexivity|].
  destruct a; simpl; rewrite ?IH; reflexivity.
Qed.

Lemma writes_of_app (l1 l2 : list action) :
  writes_of (l1 ++ l2) = writes_of l1 ++ writes_of l2.
Proof.
  induction l1 as [|a l1 IH]; simpl; [reflexivity|].
  destruct a; simpl; rewrite ?IH; reflexivity.
Qed.

Lemma take_other (op : pending_op) (l r : list pending_op) :
  (forall e, op <> PWrite e) ->
  take op l = Some r ->
  pwrites r = pwrites l.
Proof.
  intros Hop. revert r.
  induction l as [|x l IH]; cbn [take]; intros r H; [discriminate|].
  destruct (pending_op_eq_dec op x) as [->|Hne].
  - injection H as <-. destruct x; try reflexivity.
    exfalso. eapply Hop. reflexivity.
  - destruct (take op l) as [r'|]; [|discriminate].
    injection H as <-. specialize (IH r' eq_refl).
    destruct x; simpl; rewrite ?IH; reflexivity.
Qed.

Lemma take_write (e : QueueEntry) (l r : list pending_op) :
  take (PWrite e) l = Some r ->
  List.length (pwrites l) = S (List.length (pwrites r)).
Proof.
  revert r.
  induction l as [|x l IH]; cbn [take]; intros r H; [discriminate|].
  destruct (pending_op_eq_dec (PWrite e) x) as [<-|Hne].
  - injection H as <-. reflexivity.
  - destruct (take (PWrite e) l) as [r'|]; [|discriminate].
    injection H as <-. specialize (IH r' eq_refl).
    destruct x; cbn [pwrites List.length]; rewrite ?IH; reflexivity.
Qed.

(** ** The invariants hold *)

Lemma init_outbound_inv (p : ptr) : outbound_inv (init p).
Proof. repeat split; simpl; auto; congruence. Qed.

(** What a step is made of. *)
Lemma step_shape (w w' : world) (ev : event) (l : list action) :
  step w ev = Some (w', l) ->
  exists pw,
    obj w' = exec (handler ev) (obj w) /\
    l = log (handler ev) (obj w) /\
    pwrites (pending w') = pw ++ writes_of l /\
    match ev with
    | WriteDone _ _ _ => List.length (pwrites (pending w)) = S (List.length pw)
    | _ => pw = pwrites (pending w)
    end.
Proof.
  unfold step, fire. intros H.
  destruct (completes ev) as [op|] eqn:Hc.
  - destruct (take op (pending w)) as [rest|] eqn:Ht; [|discriminate].
    injection H as <- <-. exists (pwrites rest).
    cbn [obj pending]. rewrite pwrites_app, pwrites_issued.
    repeat split.
    destruct ev; try discriminate; injection Hc as <-; cbn beta iota;
      try (eapply take_other; [|eassumption]; intros e; discriminate).
    eapply take_write; eassumption.
  - injection H as <- <-. exists (pwrites (pending w)).
    cbn [obj pending]. rewrite pwrites_app, pwrites_issued.
    repeat split. destruct ev; try discriminate; reflexivity.
Qed.

Lemma sends_of_cons (ev : event) (evs : list event) :
  sends_of (ev :: evs) = sends_of [ev] ++ sends_of evs.
Proof. destruct ev; reflexivity. Qed.

Lemma length_le_1_S {A} (l pw : list A) :
  (List.length l <= 1)%nat -> List.length l = S (List.length pw) ->
  pw = [] /\ l <> [].
Proof.
  intros H1 H2. destruct pw; simpl in *; [|lia].
  split; [reflexivity|]. intros ->. discriminate.
Qed.

Lemma step_outbound (w w' : world) (ev : event) (l : list action) :
  outbound_inv w ->
  step w ev = Some (w', l) ->
  outbound_inv w' /\
  writes_of l ++ outbound_queue_ (obj w') =
    outbound_queue_ (obj w) ++ sends_of [ev].
Proof.
  intros (I1 & I2 & I3) H.
  destruct (step_shape _ _ _ _ H) as (pw & Ho & Hl & Hp & Hpw).
  pose proof (handler_outbound ev (obj w)) as Hh. cbv zeta in Hh.
  rewrite <- Ho, <- Hl in Hh. unfold outbound_inv. rewrite Hp.
  destruct ev; cbn [sends_of]; rewrite ?app_nil_r;
    try (destruct Hh as (-> & -> & ->); subst pw; rewrite ?app_nil_r;
         repeat split; assumption).
  - (* send *)
    destruct Hh as (Ha & Hh). subst pw.
    destruct (outbound_active_ (obj w)) eqn:Hact; destruct Hh as (-> & ->).
    + rewrite app_nil_r. repeat split; auto; congruence.
    + rewrite (I3 eq_refl).
      destruct (pwrites (pending w)) as [|x xs] eqn:Hpend.
      * repeat split; simpl; auto; congruence.
      * assert (false = true) by (apply I2; discriminate). discriminate.
  - (* write completion *)
    destruct (length_le_1_S _ _ I1 Hpw) as (-> & Hne).
    specialize (I2 Hne).
    destruct (is_ok err).
    + destruct (outbound_queue_ (obj w)) as [|front rest].
      * destruct Hh as (-> & -> & ->). repeat split; simpl; auto; congruence.
      * destruct Hh as (-> & -> & ->). repeat split; simpl; auto; congruence.
    + destruct Hh as (-> & -> & ->). rewrite app_nil_r.
      repeat split; simpl; auto; congruence.
Qed.

Lemma step_drained (w w' : world) (ev : event) (l : list action) :
  writes_succeed [ev] = true ->
  drained_inv w ->
  step w ev = Some (w', l) ->
  drained_inv w'.
Proof.
  intros Hs K H.
  destruct (step_shape _ _ _ _ H) as (pw & Ho & Hl & Hp & Hpw).
  pose proof (handler_outbound ev (obj w)) as Hh. cbv zeta in Hh.
  rewrite <- Ho, <- Hl in Hh. unfold drained_inv in *. rewrite Hp.
  destruct ev;
    try (destruct Hh as (-> & -> & _); subst pw; rewrite app_nil_r;
         assumption).
  - destruct Hh as (_ & Hh). subst pw.
    destruct (outbound_active_ (obj w)) eqn:Hact; destruct Hh as (-> & _).
    + rewrite app_nil_r. intros Hq. specialize (K Hq). discriminate.
    + intros Hq. apply app_eq_nil in Hq. destruct Hq; discriminate.
  - cbn [writes_succeed] in Hs. rewrite andb_true_r in Hs. rewrite Hs in Hh.
    destruct (outbound_queue_ (obj w)) as [|front rest];
      destruct Hh as (-> & -> & _).
    + reflexivity.
    + intros Hq. apply app_eq_nil in Hq. destruct Hq; discriminate.
Qed.

Lemma step_stuck (w w' : world) (ev : event) (l : list action) :
  stuck w ->
  step w ev = Some (w', l) ->
  stuck w' /\ writes_of l = [] /\
  outbound_queue_ (obj w') = outbound_queue_ (obj w) ++ sends_of [ev].
Proof.
  intros (Ha & Hq) H.
  destruct (step_shape _ _ _ _ H) as (pw & Ho & Hl & Hp & Hpw).
  pose proof (handler_outbound ev (obj w)) as Hh. cbv zeta in Hh.
  rewrite <- Ho, <- Hl in Hh. unfold stuck. rewrite Hp.
  destruct ev; cbn [sends_of];
    try (destruct Hh as (-> & -> & ->); subst pw; rewrite !app_nil_r;
         repeat split; assumption).
  - destruct Hh as (-> & Hh). subst pw. rewrite Ha in Hh.
    destruct Hh as (-> & ->). rewrite app_nil_r. repeat split; assumption.
  - rewrite Hq in Hpw. discriminate.
Qed.

Lemma step_capacity (w w' : world) (ev : event) (l : list action) :
  step w ev = Some (w', l) ->
  in_data_size_ (obj w) <= in_data_size_ (obj w').
Proof.
  intros H. destruct (step_shape _ _ _ _ H) as (pw & -> & _).
  apply handler_capacity.
Qed.

(** ** Runs *)

Lemma run_cons (w w' : world) (ev : event) (evs : list event) (tr : list action) :
  run w (ev :: evs) = Some (w', tr) ->
  exists w1 l1 l2,
    step w ev = Some (w1, l1) /\ run w1 evs = Some (w', l2) /\ tr = l1 ++ l2.
Proof.
  cbn [run]. intros H.
  destruct (step w ev) as [[w1 l1]|]; [|discriminate].
  destruct (run w1 evs) as [[w2 l2]|] eqn:Hr; [|discriminate].
  injection H as <- <-. exists w1, l1, l2. auto.
Qed.

Lemma run_outbound (evs : list event) :
  forall (w w' : world) (tr : list action),
    outbound_inv w ->
    run w evs = Some (w', tr) ->
    outbound_inv w' /\
    writes_of tr ++ outbound_queue_ (obj w') =
      outbound_queue_ (obj w) ++ sends_of evs.
Proof.
  induction evs as [|ev evs IH]; intros w w' tr Hinv H.
  - injection H as <- <-. simpl. rewrite app_nil_r. auto.
  - destruct (run_cons _ _ _ _ _ H) as (w1 & l1 & l2 & Hs & Hr & ->).
    destruct (step_outbound _ _ _ _ Hinv Hs) as (Hinv1 & E1).
    destruct (IH _ _ _ Hinv1 Hr) as (Hinv' & E2).
    split; [assumption|].
    rewrite writes_of_app, sends_of_cons, <- app_assoc, E2, !app_assoc, E1.
    reflexivity.
Qed.

Lemma run_drained (evs : list event) :
  forall (w w' : world) (tr : list action),
    writes_succeed evs = true ->
    drained_inv w ->
    run w evs = Some (w', tr) ->
    drained_inv w'.
Proof.
  induction evs as [|ev evs IH]; intros w w' tr Hs K H.
  - injection H as <- <-. assumption.
  - destruct (run_cons _ _ _ _ _ H) as (w1 & l1 & l2 & Hst & Hr & ->).
    assert (writes_succeed [ev] = true /\ writes_succeed evs = true) as (Hs1 & Hs2).
    { destruct ev; cbn [writes_succeed] in *; auto.
      apply andb_true_iff in Hs. rewrite andb_true_r. assumption. }
    apply (IH w1 w' l2 Hs2); [|assumption].
    apply (step_drained w w1 ev l1 Hs1 K Hst).
Qed.

Lemma run_stuck (evs : list event) :
  forall (w w' : world) (tr : list action),
    stuck w ->
    run w evs = Some (w', tr) ->
    stuck w' /\ writes_of tr = [] /\
    outbound_queue_ (obj w') = outbound_queue_ (obj w) ++ sends_of evs.
Proof.
  induction evs as [|ev evs IH]; intros w w' tr Hst H.
  - injection H as <- <-. simpl. rewrite app_nil_r. auto.
  - destruct (run_cons _ _ _ _ _ H) as (w1 & l1 & l2 & Hs & Hr & ->).
    destruct (step_stuck _ _ _ _ Hst Hs) as (Hst1 & W1 & Q1).
    destruct (IH _ _ _ Hst1 Hr) as (Hst' & W2 & Q2).
    rewrite sends_of_cons, writes_of_app, W1, W2, Q2, Q1, app_assoc. auto.
Qed.

Lemma run_capacity (evs : list event) :
  forall (w w' : world) (tr : list action),
    run w evs = Some (w', tr) ->
    in_data_size_ (obj w) <= in_data_size_ (obj w').
Proof.
  induction evs as [|ev evs IH]; intros w w' tr H.
  - injection H as <- <-. lia.
  - destruct (run_cons _ _ _ _ _ H) as (w1 & l1 & l2 & Hs & Hr & ->).
    apply step_capacity in Hs. apply IH in Hr. lia.
Qed.

Lemma reachable_outbound_inv (w : world) : reachable w -> outbound_inv w.
Proof.
  intros (p & evs & tr & H).
  apply (run_outbound evs _ _ _ (init_outbound_inv p) H).
Qed.

(** ** The write path *)


(** C4, as amended: when the outstanding write of a reachable client
    completes with an error, [handle_write] destroys the completed entry,
    fires [disconnected(error)] once and starts no write; the queued entries
    are not removed (the client's members, queue and in-flight flag
    included, are left as they were), and no later event writes them. *)
Theorem handle_write_error_stops_draining (w w1 : world) (err : error_code)
    (n : N) (e : QueueEntry) (l1 : list action) :
  reachable w ->
  is_ok err = false ->
  step w (WriteDone err n e) = Some (w1, l1) ->
  l1 = [Delete e; SigDisconnected err] /\
  obj w1 = obj w /\
  outbound_queue_ (obj w1) = outbound_queue_ (obj w) /\
  forall evs w2 tr, run w1 evs = Some (w2, tr) -> writes_of tr = [].
Proof.
  intros Hreach Herr Hstep.
  destruct (reachable_outbound_inv _ Hreach) as (I1 & I2 & _).
  destruct (step_shape _ _ _ _ Hstep) as (pw & Ho & Hl & Hp & Hpw).
  cbn [handler] in Ho, Hl. unfold exec, log in Ho, Hl.
  rewrite (handle_write_error _ _ _ _ Herr) in Ho, Hl. simpl in Ho, Hl.
  destruct (length_le_1_S _ _ I1 Hpw) as (-> & Hne).
  subst l1. rewrite Ho. repeat split.
  intros evs w2 tr Hrun.
  assert (stuck w1) as Hst.
  { split; [rewrite Ho; auto | rewrite Hp; reflexivity]. }
  apply (run_stuck evs _ _ _ Hst Hrun).
Qed.


(** C9: once a write of a reachable client has completed with an error,
    the in-flight flag stays set and the queued entries stay queued; through
    every later sequence of events the flag remains set, no write is
    started, no write is outstanding, the queue is the old queue followed
    by the entries sent since, and a further [send] only appends. *)
Theorem write_error_blocks_outbound (w w1 w2 : world) (err : error_code)
    (n : N) (e : QueueEntry) (l1 : list action) (evs : list event)
    (tr : list action) :
  reachable w ->
  is_ok err = false ->
  step w (WriteDone err n e) = Some (w1, l1) ->
  run w1 evs = Some (w2, tr) ->
  outbound_active_ (obj w1) = true /\
  outbound_queue_ (obj w1) = outbound_queue_ (obj w) /\
  writes_of l1 = [] /\
  writes_of tr = [] /\
  outbound_active_ (obj w2) = true /\
  pwrites (pending w2) = [] /\
  outbound_queue_ (obj w2) = outbound_queue_ (obj w) ++ sends_of evs /\
  forall comp_id mtype m,
    send comp_id mtype m (obj w2) =
      (tt,
       set_outbound_queue_
         (outbound_queue_ (obj w2) ++ [new_entry comp_id mtype m]) (obj w2),
       [Lock; Unlock]).
Proof.
  intros Hreach Herr Hstep Hrun.
  destruct (reachable_outbound_inv _ Hreach) as (I1 & I2 & _).
  destruct (step_shape _ _ _ _ Hstep) as (pw & Ho & Hl & Hp & Hpw).
  cbn [handler] in Ho, Hl. unfold exec, log in Ho, Hl.
  rewrite (handle_write_error _ _ _ _ Herr) in Ho, Hl. simpl in Ho, Hl.
  destruct (length_le_1_S _ _ I1 Hpw) as (-> & Hne).
  subst l1.
  assert (stuck w1) as Hst.
  { split; [rewrite Ho; auto | rewrite Hp; reflexivity]. }
  destruct (run_stuck evs _ _ _ Hst Hrun) as ((Ha2 & Hp2) & W2 & Q2).
  destruct Hst as (Ha1 & _).
  rewrite Ho in Q2 |- *.
  repeat split; auto.
  intros comp_id mtype m. unfold_method. rewrite Ha2. reflexivity.
Qed.

(** ** Disconnecting *)

(** C8: every call of [disconnect] shuts the socket down, closes it and
    fires [disconnected] with the no-error code, whatever the state of the
    socket and of the connection; two calls in a row fire two such
    notifications; [is_connected] is false after the first call and after
    the second, and the second call leaves the members as the first left
    them. *)
Theorem disconnect_idempotent (c : client) :
  let c1 := exec disconnect c in
  let c2 := exec disconnect c1 in
  log disconnect c = [SocketShutdown; SocketClose; SigDisconnected no_error] /\
  log disconnect c1 = [SocketShutdown; SocketClose; SigDisconnected no_error] /\
  disconnects_of (log (bind disconnect (fun _ => disconnect)) c) =
    [no_error; no_error] /\
  exec (bind disconnect (fun _ => disconnect)) c = c2 /\
  is_connected c1 = false /\
  is_connected c2 = false /\
  c2 = c1.
Proof. repeat split. Qed.

(** ** The input buffer *)

(** C10: when the header read succeeded and the decoded payload size is at
    most the capacity, [handle_read_header] changes neither [in_data_] nor
    [in_data_size_] (nor any other member), calls no [realloc], and starts
    the payload read into the buffer it already had. *)
Theorem handle_read_header_reuses_buffer (c : client) (err : error_code)
    (r : ptr) :
  is_ok err = true ->
  ntohl (payload_size (in_frame_header_ c)) <= in_data_size_ c ->
  let c' := exec (handle_read_header err r) c in
  let l := log (handle_read_header err r) c in
  in_data_ c' = in_data_ c /\
  in_data_size_ c' = in_data_size_ c /\
  c' = c /\
  reallocs_of l = [] /\
  l = [AsyncReadPayload (in_data_ c)
         (ntohl (payload_size (in_frame_header_ c)))].
Proof.
  intros Hok Hle c' l. subst c' l. unfold exec, log.
  rewrite (handle_read_header_fits c err r Hok Hle). simpl. auto.
Qed.


End Properties.

(** * The properties on concrete runs *)

Import Demo.

(** The example worlds are states of real runs of a fresh client. *)
Lemma w_connected_reachable :
  run w0 connect_ok =
    Some (w_connected,
          [AsyncResolve "localhost" 4444; RunAsio; AsyncConnect server;
           AsyncReadHeader; SigConnected]).
Proof. reflexivity. Qed.

Lemma w_payload_reachable :
  step w_connected (ReadHeaderDone no_error hdr4096 0x2000) =
    Some (w_payload, [Realloc 0x1000 4096; AsyncReadPayload 0x2000 4096]).
Proof. reflexivity. Qed.

Lemma w_sending_reachable : reachable w_sending.
Proof.
  exists 0x1000, three_sends,
    [Lock; AsyncWrite entryA; RunAsio; Unlock; Lock; Unlock; Lock; Unlock].
  reflexivity.
Qed.

(** The receive path on two frames: the buffer grows for the first one and
    is reused for the second, whose message is dispatched with its tags. *)
Example two_frames_trace :
  snd two_frames_result =
    [AsyncResolve "localhost" 4444; RunAsio; AsyncConnect server;
     AsyncReadHeader; SigConnected;
     Realloc 0x1000 4096; AsyncReadPayload 0x2000 4096;
     SigRcvd 1 3 []; AsyncReadHeader;
     AsyncReadPayload 0x2000 5;
     SigRcvd 1 3 msgB; AsyncReadHeader].
Proof. reflexivity. Qed.

(** C1: the code at the failing input.  A connected client with a
    1024-byte buffer at 0x1000 reads the header of a 4096-byte frame and
    [realloc] returns [NULL]: the handler fires [disconnected] with
    [not_enough_memory] and then starts the payload read of 4096 bytes into
    the 1024-byte buffer; [connected_] is still true and the capacity is
    still 1024. *)
Theorem handle_read_header_reads_into_small_buffer :
  step w_connected (ReadHeaderDone no_error hdr4096 NULL) =
    Some (mk_world (mk_client true false [] 1024 0x1000 hdr4096 true)
                   [PReadPayload 0x1000 4096],
          [Realloc 0x1000 4096; SigDisconnected not_enough_memory;
           AsyncReadPayload 0x1000 4096]) /\
  payload_reads_of
    (log (handler (ReadHeaderDone no_error hdr4096 NULL)) (obj w_connected)) =
    [(0x1000, 4096)] /\
  ntohl (payload_size hdr4096) = 4096 /\
  in_data_size_ (obj w_connected) = 1024 /\
  in_data_size_
    (exec (handler (ReadHeaderDone no_error hdr4096 NULL)) (obj w_connected))
    = 1024 /\
  is_connected
    (exec (handler (ReadHeaderDone no_error hdr4096 NULL)) (obj w_connected))
    = true.
Proof. repeat split. Qed.

(** C2: the code at the failing inputs.  A header read and a payload read
    of a connected client complete with [eof]: neither handler starts a
    read, and neither fires a signal nor touches [connected_], which stays
    true. *)
Theorem read_errors_leave_client_connected :
  step w_connected (ReadHeaderDone eof hdr5 NULL) =
    Some (mk_world (mk_client true false [] 1024 0x1000 hdr5 true) [], []) /\
  step w_payload (ReadPayloadDone eof 0x2000 4096 []) =
    Some (mk_world (obj w_payload) [], []) /\
  is_connected (exec (handler (ReadHeaderDone eof hdr5 NULL)) (obj w_connected))
    = true /\
  is_connected
    (exec (handler (ReadPayloadDone eof 0x2000 4096 [])) (obj w_payload))
    = true.
Proof. repeat split. Qed.

(** C3: the code at the failing inputs.  A failed resolution and a failed
    connect each fire two notifications, the first with the no-error code;
    a failed header read and a failed payload read fire none; a failed write
    and an exhausted buffer growth fire one.  No handler starts the failed
    operation again. *)
Theorem failures_fire_two_or_no_notifications :
  option_map snd
    (run w0 [CallAsyncConnect "nohost" 4444; ResolveDone host_not_found []]) =
    Some [AsyncResolve "nohost" 4444; RunAsio; SocketShutdown; SocketClose;
          SigDisconnected no_error; SigDisconnected host_not_found] /\
  notified
    (run w0 [CallAsyncConnect "nohost" 4444; ResolveDone host_not_found []]) =
    Some [no_error; host_not_found] /\
  option_map snd
    (run w0 [CallAsyncConnect "localhost" 4444; ResolveDone no_error server;
             ConnectDone connection_refused]) =
    Some [AsyncResolve "localhost" 4444; RunAsio; AsyncConnect server;
          SocketShutdown; SocketClose;
          SigDisconnected no_error; SigDisconnected connection_refused] /\
  notified
    (run w0 [CallAsyncConnect "localhost" 4444; ResolveDone no_error server;
             ConnectDone connection_refused]) =
    Some [no_error; connection_refused] /\
  notified (step w_connected (ReadHeaderDone eof hdr5 NULL)) = Some [] /\
  notified (step w_payload (ReadPayloadDone eof 0x2000 4096 [])) = Some [] /\
  notified (step w_sending (WriteDone broken_pipe 0 entryA)) =
    Some [broken_pipe] /\
  notified (step w_connected (ReadHeaderDone no_error hdr4096 NULL)) =
    Some [not_enough_memory].
Proof. repeat split. Qed.

(** C4 does not hold as stated: with B and C queued behind the write of
    A, the failure of that write leaves B and C in the queue; the queue is
    not emptied. *)
Lemma write_error_keeps_queued_entries :
  let c' := exec (handle_write broken_pipe 0 entryA) (obj w_sending) in
  log (handle_write broken_pipe 0 entryA) (obj w_sending) =
    [Delete entryA; SigDisconnected broken_pipe] /\
  outbound_queue_ c' = [entryB; entryC] /\
  ~ outbound_queue_ c' = [].
Proof. repeat split. discriminate. Qed.

Lemma handle_write_error_stops_draining_witness :
  reachable w_sending /\
  is_ok broken_pipe = false /\
  step w_sending (WriteDone broken_pipe 0 entryA) =
    Some (w_stuck, [Delete entryA; SigDisconnected broken_pipe]) /\
  ([Delete entryA; SigDisconnected broken_pipe] =
     [Delete entryA; SigDisconnected broken_pipe] /\
   obj w_stuck = obj w_sending /\
   outbound_queue_ (obj w_stuck) = outbound_queue_ (obj w_sending) /\
   forall evs w2 tr, run w_stuck evs = Some (w2, tr) -> writes_of tr = []).
Proof.
  split; [exact w_sending_reachable|].
  split; [reflexivity|].
  split; [reflexivity|].
  apply (handle_write_error_stops_draining w_sending w_stuck broken_pipe 0
           entryA [Delete entryA; SigDisconnected broken_pipe]
           w_sending_reachable eq_refl eq_refl).
Defined.






Lemma write_error_blocks_outbound_witness :
  reachable w_sending /\
  is_ok broken_pipe = false /\
  step w_sending (WriteDone broken_pipe 0 entryA) =
    Some (w_stuck, [Delete entryA; SigDisconnected broken_pipe]) /\
  run w_stuck after_failure =
    Some (fst after_failure_result, snd after_failure_result) /\
  outbound_queue_ (obj (fst after_failure_result)) =
    [entryB; entryC; entryA; entryC] /\
  (outbound_active_ (obj w_stuck) = true /\
   outbound_queue_ (obj w_stuck) = outbound_queue_ (obj w_sending) /\
   writes_of [Delete entryA; SigDisconnected broken_pipe] = [] /\
   writes_of (snd after_failure_result) = [] /\
   outbound_active_ (obj (fst after_failure_result)) = true /\
   pwrites (pending (fst after_failure_result)) = [] /\
   outbound_queue_ (obj (fst after_failure_result)) =
     outbound_queue_ (obj w_sending) ++ sends_of after_failure /\
   forall comp_id mtype m,
     send comp_id mtype m (obj (fst after_failure_result)) =
       (tt,
        set_outbound_queue_
          (outbound_queue_ (obj (fst after_failure_result)) ++
             [new_entry comp_id mtype m])
          (obj (fst after_failure_result)),
        [Lock; Unlock])).
Proof.
  split; [exact w_sending_reachable|].
  split; [reflexivity|].
  split; [reflexivity|].
  split; [reflexivity|].
  split; [reflexivity|].
  apply (write_error_blocks_outbound w_sending w_stuck
           (fst after_failure_result) broken_pipe 0 entryA
           [Delete entryA; SigDisconnected broken_pipe] after_failure
           (snd after_failure_result)
           w_sending_reachable eq_refl eq_refl eq_refl).
Defined.

Lemma handle_read_header_reuses_buffer_witness :
  is_ok no_error = true /\
  ntohl (payload_size (in_frame_header_ c_hdr5)) <= in_data_size_ c_hdr5 /\
  (let c' := exec (handle_read_header no_error 0x2000) c_hdr5 in
   let l := log (handle_read_header no_error 0x2000) c_hdr5 in
   in_data_ c' = in_data_ c_hdr5 /\
   in_data_size_ c' = in_data_size_ c_hdr5 /\
   c' = c_hdr5 /\
   reallocs_of l = [] /\
   l = [AsyncReadPayload (in_data_ c_hdr5)
          (ntohl (payload_size (in_frame_header_ c_hdr5)))]).
Proof.
  assert (H : ntohl (payload_size (in_frame_header_ c_hdr5)) <= in_data_size_ c_hdr5)
    by (vm_compute; discriminate).
  split; [reflexivity|].
  split; [exact H|].
  exact (handle_read_header_reuses_buffer c_hdr5 no_error 0x2000 eq_refl H).
Defined.

(** * Further properties of whole runs *)

Section RunProperties.
Context {codec : Codec}.

Ltac unfold_handler :=
  unfold exec, log, handler, send, handle_write, handle_read_message,
    handle_read_header, handle_connect, handle_resolve, start_recv,
    disconnect, disconnect_nosig, async_connect, run_asio,
    sig_rcvd_, sig_disconnected_, sig_connected_,
    bind, gets, modify, emit, ret in *.

Ltac case_tests :=
  repeat match goal with
         | |- context [if ?b then _ else _] => destruct b eqn:?; simpl
         | |- context [match ?q with [] => _ | _ :: _ => _ end] =>
             destruct q eqn:?; simpl
         end.

(** ** Lists of logged actions *)

Lemma deletes_of_app (l1 l2 : list action) :
  deletes_of (l1 ++ l2) = deletes_of l1 ++ deletes_of l2.
Proof.
  induction l1 as [|a l1 IH]; simpl; [reflexivity|].
  destruct a; simpl; rewrite ?IH; reflexivity.
Qed.

Lemma disconnects_of_app (l1 l2 : list action) :
  disconnects_of (l1 ++ l2) = disconnects_of l1 ++ disconnects_of l2.
Proof.
  induction l1 as [|a l1 IH]; simpl; [reflexivity|].
  destruct a; simpl; rewrite ?IH; reflexivity.
Qed.

Lemma connects_of_app (l1 l2 : list action) :
  connects_of (l1 ++ l2) = (connects_of l1 + connects_of l2)%nat.
Proof.
  induction l1 as [|a l1 IH]; simpl; [reflexivity|].
  destruct a; simpl; rewrite ?IH; reflexivity.
Qed.

Lemma rcvds_of_app (l1 l2 : list action) :
  rcvds_of (l1 ++ l2) = rcvds_of l1 ++ rcvds_of l2.
Proof.
  induction l1 as [|a l1 IH]; simpl; [reflexivity|].
  destruct a; simpl; rewrite ?IH; reflexivity.
Qed.

Lemma mutex_after_app (l1 l2 : list action) :
  forall held,
    mutex_after held (l1 ++ l2) =
      match mutex_after held l1 with
      | Some held' => mutex_after held' l2
      | None => None
      end.
Proof.
  induction l1 as [|a l1 IH]; intros held; simpl; [reflexivity|].
  destruct a; simpl; try apply IH; destruct held; simpl; auto.
Qed.

(** ** What each method logs *)

Lemma handler_deletes (ev : event) (c : client) :
  deletes_of (log (handler ev) c) = write_completions [ev].
Proof. destruct ev; unfold_handler; simpl; case_tests; reflexivity. Qed.

Lemma handler_mutex (ev : event) (c : client) :
  mutex_after false (log (handler ev) c) = Some false.
Proof. destruct ev; unfold_handler; simpl; case_tests; reflexivity. Qed.

Lemma handler_connects (ev : event) (c : client) :
  connects_of (log (handler ev) c) = connects_ok [ev] /\
  List.length (rcvds_of (log (handler ev) c)) = payloads_ok [ev].
Proof. destruct ev; unfold_handler; simpl; case_tests; auto. Qed.

Lemma handler_connected (ev : event) (c : client) :
  connected_ (exec (handler ev) c) = connected_after (connected_ c) [ev].
Proof. destruct ev; unfold_handler; simpl; case_tests; reflexivity. Qed.

Lemma handler_capacity_after (ev : event) (c : client) :
  in_data_size_ (exec (handler ev) c) = capacity_after (in_data_size_ c) ev.
Proof. destruct ev; unfold_handler; simpl; case_tests; reflexivity. Qed.

Lemma handler_uneventful (ev : event) (c : client) :
  disconnects_of (log (handler ev) c) = [] <->
  uneventful_at (in_data_size_ c) ev = true.
Proof.
  destruct ev; unfold_handler; simpl.
  - split; intros; reflexivity.
  - split; intros; discriminate.
  - destruct (outbound_active_ c); simpl; split; intros; reflexivity.
  - destruct (is_ok err); simpl; split; intros; auto; discriminate.
  - destruct (is_ok err); simpl; split; intros; auto; discriminate.
  - destruct (is_ok err); simpl; [|split; intros; reflexivity].
    destruct (in_data_size_ c <? ntohl (payload_size hdr)); simpl;
      [|split; intros; reflexivity].
    destruct (realloc_ret =? NULL); simpl; split; intros; auto; discriminate.
  - destruct (is_ok err); simpl; split; intros; reflexivity.
  - destruct (is_ok err); simpl; [|split; intros; auto; discriminate].
    destruct (outbound_queue_ c); simpl; split; intros; reflexivity.
Qed.

(** ** Outstanding writes *)

Lemma take_write_In (e : QueueEntry) (l r : list pending_op) :
  take (PWrite e) l = Some r -> In e (pwrites l).
Proof.
  revert r.
  induction l as [|x l IH]; cbn [take]; intros r H; [discriminate|].
  destruct (pending_op_eq_dec (PWrite e) x) as [<-|Hne].
  - left. reflexivity.
  - destruct (take (PWrite e) l) as [r'|]; [|discriminate].
    specialize (IH r' eq_refl).
    destruct x; cbn [pwrites]; auto. right. assumption.
Qed.

Lemma step_write_In (w w' : world) (err : error_code) (n : N)
    (e : QueueEntry) (l : list action) :
  step w (WriteDone err n e) = Some (w', l) -> In e (pwrites (pending w)).
Proof.
  unfold step. cbn [completes]. intros H.
  destruct (take (PWrite e) (pending w)) as [rest|] eqn:Ht; [|discriminate].
  eapply take_write_In. eassumption.
Qed.

Lemma single_In {A} (x : A) (l : list A) :
  (List.length l <= 1)%nat -> In x l -> l = [x].
Proof.
  destruct l as [|y [|z l]]; simpl; intros Hl Hin.
  - contradiction.
  - destruct Hin as [->|[]]. reflexivity.
  - lia.
Qed.

(** ** Induction over a run *)

Lemma run_induction
    (P : world -> list event -> world -> list action -> Prop) :
  (forall w, P w [] w []) ->
  (forall w ev evs w1 l1 w2 l2,
     step w ev = Some (w1, l1) ->
     run w1 evs = Some (w2, l2) ->
     P w1 evs w2 l2 ->
     P w (ev :: evs) w2 (l1 ++ l2)) ->
  forall evs w w' tr, run w evs = Some (w', tr) -> P w evs w' tr.
Proof.
  intros Hnil Hcons.
  induction evs as [|ev evs IH]; intros w w' tr H.
  - injection H as <- <-. apply Hnil.
  - destruct (run_cons _ _ _ _ _ H) as (w1 & l1 & l2 & Hs & Hr & ->).
    eapply Hcons; eauto.
Qed.

Lemma step_log (w w' : world) (ev : event) (l : list action) :
  step w ev = Some (w', l) ->
  obj w' = exec (handler ev) (obj w) /\ l = log (handler ev) (obj w).
Proof.
  intros H. destruct (step_shape _ _ _ _ H) as (pw & Ho & Hl & _). auto.
Qed.

Lemma write_completions_cons (ev : event) (evs : list event) :
  write_completions (ev :: evs) = write_completions [ev] ++ write_completions evs.
Proof. destruct ev; reflexivity. Qed.

Lemma connects_ok_cons (ev : event) (evs : list event) :
  connects_ok (ev :: evs) = (connects_ok [ev] + connects_ok evs)%nat.
Proof. destruct ev; simpl; try reflexivity. destruct (is_ok err); reflexivity. Qed.

Lemma payloads_ok_cons (ev : event) (evs : list event) :
  payloads_ok (ev :: evs) = (payloads_ok [ev] + payloads_ok evs)%nat.
Proof. destruct ev; simpl; try reflexivity. destruct (is_ok err); reflexivity. Qed.

Lemma connected_after_cons (b : bool) (ev : event) (evs : list event) :
  connected_after b (ev :: evs) = connected_after (connected_after b [ev]) evs.
Proof. destruct ev; reflexivity. Qed.

(** ** Entries and their writes *)

Lemma step_deletes (w w' : world) (ev : event) (l : list action) :
  outbound_inv w ->
  step w ev = Some (w', l) ->
  deletes_of l = write_completions [ev] /\
  deletes_of l ++ pwrites (pending w') = pwrites (pending w) ++ writes_of l.
Proof.
  intros (I1 & _) H.
  destruct (step_shape _ _ _ _ H) as (pw & Ho & Hl & Hp & Hpw).
  assert (deletes_of l = write_completions [ev]) as Hd
    by (rewrite Hl; apply handler_deletes).
  split; [exact Hd|]. rewrite Hd, Hp.
  destruct ev; cbn [write_completions app]; try (subst pw; reflexivity).
  destruct (length_le_1_S _ _ I1 Hpw) as (-> & _).
  rewrite (single_In entry _ I1 (step_write_In _ _ _ _ _ _ H)). reflexivity.
Qed.

Lemma run_deletes (evs : list event) :
  forall (w w' : world) (tr : list action),
    run w evs = Some (w', tr) ->
    outbound_inv w ->
    deletes_of tr = write_completions evs /\
    deletes_of tr ++ pwrites (pending w') = pwrites (pending w) ++ writes_of tr.
Proof.
  apply (run_induction
           (fun w evs w' tr =>
              outbound_inv w ->
              deletes_of tr = write_completions evs /\
              deletes_of tr ++ pwrites (pending w') =
                pwrites (pending w) ++ writes_of tr)).
  - intros w _. simpl. rewrite app_nil_r. auto.
  - intros w ev evs0 w1 l1 w2 l2 Hs Hr IH Hinv.
    destruct (step_deletes _ _ _ _ Hinv Hs) as (D1 & E1).
    destruct (step_outbound _ _ _ _ Hinv Hs) as (Hinv1 & _).
    destruct (IH Hinv1) as (D2 & E2).
    rewrite deletes_of_app, writes_of_app, write_completions_cons.
    split; [rewrite D1, D2; reflexivity|].
    rewrite <- app_assoc, E2, !app_assoc, E1. reflexivity.
Qed.

(** X1: over the life of a client at most one write is outstanding at any
    time; a write is outstanding only while the in-flight flag is set, and
    entries wait in the queue only while it is set. *)
Theorem one_write_in_flight (p : ptr) (evs : list event) (w : world)
    (tr : list action) :
  run (init p) evs = Some (w, tr) ->
  (List.length (pwrites (pending w)) <= 1)%nat /\
  (pwrites (pending w) <> [] -> outbound_active_ (obj w) = true) /\
  (outbound_queue_ (obj w) <> [] -> outbound_active_ (obj w) = true).
Proof.
  intros H.
  destruct (run_outbound evs _ _ _ (init_outbound_inv p) H)
    as ((I1 & I2 & I3) & _).
  repeat split; auto.
  intros Hq. destruct (outbound_active_ (obj w)); [reflexivity|].
  exfalso. apply Hq. apply I3. reflexivity.
Qed.

(** X2: as long as no write has completed with an error, the in-flight flag
    is set exactly while a write is outstanding; so a non-empty queue always
    has a write outstanding whose completion will drain it, and when none
    is outstanding the queue is empty. *)
Theorem queue_is_drained (p : ptr) (evs : list event) (w : world)
    (tr : list action) :
  run (init p) evs = Some (w, tr) ->
  writes_succeed evs = true ->
  (outbound_active_ (obj w) = true <-> exists e, pwrites (pending w) = [e]) /\
  (outbound_queue_ (obj w) <> [] -> exists e, pwrites (pending w) = [e]) /\
  (pwrites (pending w) = [] -> outbound_queue_ (obj w) = []).
Proof.
  intros H Hs.
  destruct (run_outbound evs _ _ _ (init_outbound_inv p) H)
    as ((I1 & I2 & I3) & _).
  assert (drained_inv (init p)) as K0 by (intros _; reflexivity).
  pose proof (run_drained evs _ _ _ Hs K0 H) as K. unfold drained_inv in K.
  assert (outbound_active_ (obj w) = true -> exists e, pwrites (pending w) = [e])
    as Hact.
  { intros Ha. destruct (pwrites (pending w)) as [|e [|e' l]] eqn:Hp.
    - rewrite (K eq_refl) in Ha. discriminate.
    - exists e. reflexivity.
    - simpl in I1. lia. }
  split; [|split].
  - split; [exact Hact|]. intros (e & He). apply I2. rewrite He. discriminate.
  - intros Hq. apply Hact. destruct (outbound_active_ (obj w)); [reflexivity|].
    exfalso. apply Hq. apply I3. reflexivity.
  - intros Hp. apply I3. apply K. exact Hp.
Qed.

(** X3: an entry is destroyed exactly when its write completes, whether the
    write succeeded or failed; the entries destroyed so far, followed by the
    entry whose write is outstanding, are the entries whose write was
    started, in the order in which the writes were started. *)
Theorem entries_destroyed_on_completion (p : ptr) (evs : list event)
    (w : world) (tr : list action) :
  run (init p) evs = Some (w, tr) ->
  deletes_of tr = write_completions evs /\
  deletes_of tr ++ pwrites (pending w) = writes_of tr.
Proof.
  intros H. apply (run_deletes evs _ _ _ H (init_outbound_inv p)).
Qed.

(** X4: in the log of every run the outbound mutex is taken only when
    free and released only when held, it is free after each method, every
    write is started while it is held, and no signal is fired while it is
    held. *)
Theorem mutex_discipline (w w' : world) (evs : list event) (tr : list action) :
  run w evs = Some (w', tr) ->
  mutex_after false tr = Some false.
Proof.
  revert evs w w' tr.
  apply (run_induction (fun _ _ _ tr => mutex_after false tr = Some false)).
  - reflexivity.
  - intros w ev evs w1 l1 w2 l2 Hs _ IH.
    destruct (step_log _ _ _ _ Hs) as (_ & ->).
    rewrite mutex_after_app, handler_mutex. exact IH.
Qed.

(** ** Notifications and the connected flag *)

(** X5: [connected_] after a run is determined by the events alone: a
    connect completion sets it to whether the connect succeeded, a call of
    [disconnect] and a failed resolution clear it, and no other event (a
    read or write completion, failed or not, a send, a successful
    resolution, a call of [async_connect]) changes it. *)
Theorem connected_flag (w w' : world) (evs : list event) (tr : list action) :
  run w evs = Some (w', tr) ->
  connected_ (obj w') = connected_after (connected_ (obj w)) evs.
Proof.
  revert evs w w' tr.
  apply (run_induction
           (fun w evs w' _ =>
              connected_ (obj w') = connected_after (connected_ (obj w)) evs)).
  - reflexivity.
  - intros w ev evs w1 l1 w2 l2 Hs _ IH.
    destruct (step_log _ _ _ _ Hs) as (Ho & _).
    rewrite connected_after_cons, <- handler_connected, <- Ho. exact IH.
Qed.

(** X6: [connected] is fired once for every connect completion without
    error and never otherwise; a message is dispatched once for every
    payload-read completion without error and never otherwise. *)
Theorem notifications_counted (w w' : world) (evs : list event)
    (tr : list action) :
  run w evs = Some (w', tr) ->
  connects_of tr = connects_ok evs /\
  List.length (rcvds_of tr) = payloads_ok evs.
Proof.
  revert evs w w' tr.
  apply (run_induction
           (fun _ evs _ tr =>
              connects_of tr = connects_ok evs /\
              List.length (rcvds_of tr) = payloads_ok evs)).
  - auto.
  - intros w ev evs w1 l1 w2 l2 Hs _ (IH1 & IH2).
    destruct (step_log _ _ _ _ Hs) as (_ & ->).
    destruct (handler_connects ev (obj w)) as (H1 & H2).
    rewrite connects_of_app, rcvds_of_app, length_app, connects_ok_cons,
      payloads_ok_cons, H1, H2, IH1, IH2. auto.
Qed.

Lemma app_nil_iff {A} (l1 l2 : list A) :
  l1 ++ l2 = [] <-> l1 = [] /\ l2 = [].
Proof.
  split.
  - apply app_eq_nil.
  - intros (-> & ->). reflexivity.
Qed.

(** X7: [disconnected] is never fired spuriously: a run fires no
    [disconnected] at all exactly when it has no call of [disconnect], no
    failed resolution, connect or write and no failed [realloc] (a
    [realloc] is called, and can fail, only for a header read without error
    whose payload size exceeds the capacity at that time); in particular a
    failed read fires none. *)
Theorem no_spurious_disconnected (w w' : world) (evs : list event)
    (tr : list action) :
  run w evs = Some (w', tr) ->
  (disconnects_of tr = [] <->
   uneventful (in_data_size_ (obj w)) evs = true).
Proof.
  revert evs w w' tr.
  apply (run_induction
           (fun w evs _ tr =>
              disconnects_of tr = [] <->
              uneventful (in_data_size_ (obj w)) evs = true)).
  - intros w. simpl. split; reflexivity.
  - intros w ev evs w1 l1 w2 l2 Hs _ IH.
    destruct (step_log _ _ _ _ Hs) as (Ho & ->).
    rewrite Ho, handler_capacity_after in IH.
    cbn [uneventful].
    rewrite disconnects_of_app, app_nil_iff, andb_true_iff,
      handler_uneventful, IH.
    reflexivity.
Qed.

(** ** The input buffer over a run *)

Lemma lor_lt_pow2 (a b n : N) :
  a < 2 ^ n -> b < 2 ^ n -> N.lor a b < 2 ^ n.
Proof.
  intros Ha Hb.
  destruct (N.eq_dec (N.lor a b) 0) as [->|Hne]; [lia|].
  apply N.log2_lt_pow2; [lia|].
  rewrite N.log2_lor.
  assert (forall c, c < 2 ^ n -> c = 0 \/ N.log2 c < n) as Hlog.
  { intros c Hc. destruct (N.eq_dec c 0) as [->|Hc0]; [auto|].
    right. apply N.log2_lt_pow2; lia. }
  assert (0 < n) as Hn.
  { destruct (N.eq_dec n 0) as [->|]; [|lia].
    simpl in Ha, Hb. assert (a = 0) by lia. assert (b = 0) by lia.
    subst. simpl in Hne. congruence. }
  destruct (Hlog a Ha) as [->|La]; destruct (Hlog b Hb) as [->|Lb];
    simpl N.log2; lia.
Qed.

Lemma ntohl_lt (x : N) : ntohl x < 2 ^ 32.
Proof.
  unfold ntohl.
  pose proof (N.land_le_r x 0xff) as H0.
  pose proof (N.land_le_r x 0xff00) as H1.
  pose proof (N.land_le_r (N.shiftr x 8) 0xff00) as H2.
  pose proof (N.land_le_r (N.shiftr x 24) 0xff) as H3.
  repeat apply lor_lt_pow2; rewrite ?N.shiftl_mul_pow2;
    change (2 ^ 32) with 4294967296; change (2 ^ 24) with 16777216;
    change (2 ^ 8) with 256; lia.
Qed.

Lemma handler_buffer (ev : event) (c : client) :
  let c' := exec (handler ev) c in
  match ev with
  | ReadHeaderDone err hdr r =>
      let n := ntohl (payload_size hdr) in
      let grow := is_ok err && (in_data_size_ c <? n) && negb (r =? NULL) in
      in_data_size_ c' = (if grow then n else in_data_size_ c) /\
      in_data_ c' = (if grow then r else in_data_ c)
  | _ => in_data_size_ c' = in_data_size_ c /\ in_data_ c' = in_data_ c
  end.
Proof.
  destruct ev; unfold_handler; simpl; case_tests; auto.
Qed.

(** X8: the capacity of the input buffer of a client is at least the 1024
    bytes of the constructor and less than 2^32 at all times. *)
Theorem capacity_bounds (p : ptr) (evs : list event) (w : world)
    (tr : list action) :
  run (init p) evs = Some (w, tr) ->
  1024 <= in_data_size_ (obj w) < 2 ^ 32.
Proof.
  intros H. split; [apply (run_capacity evs _ _ _ H)|].
  revert H.
  assert (in_data_size_ (obj (init p)) < 2 ^ 32) as H0 by reflexivity.
  revert H0. generalize (init p). intros w0 H0 H. revert H0.
  revert evs w0 w tr H.
  apply (run_induction
           (fun w _ w' _ =>
              in_data_size_ (obj w) < 2 ^ 32 -> in_data_size_ (obj w') < 2 ^ 32)).
  - auto.
  - intros w ev evs w1 l1 w2 l2 Hs _ IH Hlt. apply IH.
    destruct (step_log _ _ _ _ Hs) as (-> & _).
    pose proof (handler_buffer ev (obj w)) as Hb. cbv zeta in Hb.
    destruct ev; try (destruct Hb as (-> & _); exact Hlt).
    destruct Hb as (-> & _).
    destruct (is_ok err && (in_data_size_ (obj w) <? ntohl (payload_size hdr))
              && negb (realloc_ret =? NULL)); [apply ntohl_lt | exact Hlt].
Qed.

(** X9: when the constructor's [malloc] succeeded, [in_data_] is never
    [NULL]: a failed [realloc] leaves the old buffer in place. *)
Theorem buffer_never_null (p : ptr) (evs : list event) (w : world)
    (tr : list action) :
  p <> NULL ->
  run (init p) evs = Some (w, tr) ->
  in_data_ (obj w) <> NULL.
Proof.
  intros Hp H.
  assert (in_data_ (obj (init p)) <> NULL) as H0 by exact Hp.
  revert H0. generalize dependent (init p). intros w0 H. revert evs w0 w tr H.
  apply (run_induction
           (fun w _ w' _ => in_data_ (obj w) <> NULL -> in_data_ (obj w') <> NULL)).
  - auto.
  - intros w ev evs w1 l1 w2 l2 Hs _ IH Hne. apply IH.
    destruct (step_log _ _ _ _ Hs) as (-> & _).
    pose proof (handler_buffer ev (obj w)) as Hb. cbv zeta in Hb.
    destruct ev; try (destruct Hb as (_ & ->); exact Hne).
    destruct Hb as (_ & ->).
    destruct (is_ok err); simpl; [|exact Hne].
    destruct (in_data_size_ (obj w) <? ntohl (payload_size hdr)); simpl;
      [|exact Hne].
    destruct (N.eqb_spec realloc_ret NULL); simpl; assumption.
Qed.

(** ** Outstanding reads *)

Lemma preads_app (l1 l2 : list pending_op) :
  preads (l1 ++ l2) = preads l1 ++ preads l2.
Proof.
  induction l1 as [|x l1 IH]; simpl; [reflexivity|].
  destruct x; simpl; rewrite ?IH; reflexivity.
Qed.

Lemma take_not_read (op : pending_op) (l r : list pending_op) :
  is_read op = false ->
  take op l = Some r ->
  preads r = preads l.
Proof.
  intros Hop. revert r.
  induction l as [|x l IH]; cbn [take]; intros r H; [discriminate|].
  destruct (pending_op_eq_dec op x) as [->|Hne].
  - injection H as <-. destruct x; try reflexivity; discriminate.
  - destruct (take op l) as [r'|]; [|discriminate].
    injection H as <-. specialize (IH r' eq_refl).
    destruct x; simpl; rewrite ?IH; reflexivity.
Qed.

Lemma take_read (op : pending_op) (l r : list pending_op) :
  is_read op = true ->
  take op l = Some r ->
  exists l1 l2, preads l = l1 ++ op :: l2 /\ preads r = l1 ++ l2.
Proof.
  intros Hop. revert r.
  induction l as [|x l IH]; cbn [take]; intros r H; [discriminate|].
  destruct (pending_op_eq_dec op x) as [<-|Hne].
  - injection H as <-. exists [], (preads l).
    destruct op; try discriminate; auto.
  - destruct (take op l) as [r'|]; [|discriminate].
    injection H as <-. destruct (IH r' eq_refl) as (l1 & l2 & E1 & E2).
    destruct x; cbn [preads]; rewrite ?E1, ?E2;
      try (exists l1, l2; split; reflexivity).
    + exists (PReadHeader :: l1), l2. auto.
    + exists (PReadPayload buf len :: l1), l2. auto.
Qed.

Lemma take_In (op : pending_op) (l : list pending_op) :
  In op l -> exists r, take op l = Some r.
Proof.
  induction l as [|x l IH]; cbn [take]; intros Hin; [contradiction|].
  destruct (pending_op_eq_dec op x) as [->|Hne]; [eauto|].
  destruct Hin as [->|Hin]; [congruence|].
  destruct (IH Hin) as (r & ->). eauto.
Qed.

(** The reads a method starts. *)
Lemma handler_reads (ev : event) (c : client) :
  preads (issued_ops (log (handler ev) c)) =
    match ev with
    | ConnectDone err => if is_ok err then [PReadHeader] else []
    | ReadHeaderDone err hdr _ =>
        if is_ok err
        then [PReadPayload (in_data_ (exec (handler ev) c))
                (ntohl (payload_size hdr))]
        else []
    | ReadPayloadDone err _ _ _ => if is_ok err then [PReadHeader] else []
    | _ => []
    end.
Proof. destruct ev; unfold_handler; simpl; case_tests; reflexivity. Qed.

(** The outstanding reads across a step. *)
Lemma step_reads (w w' : world) (ev : event) (l : list action) :
  step w ev = Some (w', l) ->
  exists pr,
    preads (pending w') = pr ++ preads (issued_ops (log (handler ev) (obj w))) /\
    match completes ev with
    | Some op =>
        if is_read op
        then exists l1 l2, preads (pending w) = l1 ++ op :: l2 /\ pr = l1 ++ l2
        else pr = preads (pending w)
    | None => pr = preads (pending w)
    end.
Proof.
  unfold step, fire. intros H.
  destruct (completes ev) as [op|] eqn:Hc.
  - destruct (take op (pending w)) as [rest|] eqn:Ht; [|discriminate].
    injection H as <- <-. exists (preads rest).
    cbn [pending]. rewrite preads_app. split; [reflexivity|].
    destruct (is_read op) eqn:Hr.
    + apply (take_read _ _ _ Hr Ht).
    + apply (take_not_read _ _ _ Hr Ht).
  - injection H as <- <-. exists (preads (pending w)).
    cbn [pending]. rewrite preads_app. auto.
Qed.

Lemma read_failures_cons (ev : event) (evs : list event) :
  read_failures (ev :: evs) = (read_failures [ev] + read_failures evs)%nat.
Proof. destruct ev; simpl; try reflexivity; destruct (is_ok err); reflexivity. Qed.

Lemma step_read_count (w w' : world) (ev : event) (l : list action) :
  step w ev = Some (w', l) ->
  (List.length (preads (pending w')) + read_failures [ev] =
   List.length (preads (pending w)) + connects_ok [ev])%nat.
Proof.
  intros H. destruct (step_reads _ _ _ _ H) as (pr & -> & Hpr).
  rewrite handler_reads, length_app.
  destruct ev; cbn [completes is_read read_failures connects_ok] in *;
    try (subst pr; simpl; lia).
  - subst pr. destruct (is_ok err); simpl; lia.
  - destruct Hpr as (l1 & l2 & -> & ->). rewrite !length_app.
    destruct (is_ok err); simpl; lia.
  - destruct Hpr as (l1 & l2 & -> & ->). rewrite !length_app.
    destruct (is_ok err); simpl; lia.
Qed.

(** X10: every connect completion without error starts one receive loop,
    and a receive loop ends only when one of its reads completes with an
    error: at any time the number of outstanding reads plus the number of
    failed reads so far is the number of successful connects so far. *)
Theorem receive_loops_counted (p : ptr) (evs : list event) (w : world)
    (tr : list action) :
  run (init p) evs = Some (w, tr) ->
  (List.length (preads (pending w)) + read_failures evs = connects_ok evs)%nat.
Proof.
  intros H.
  change (connects_ok evs) with
    (List.length (preads (pending (init p))) + connects_ok evs)%nat.
  revert H. generalize (init p). intros w0 H. revert evs w0 w tr H.
  apply (run_induction
           (fun w evs w' _ =>
              (List.length (preads (pending w')) + read_failures evs =
               List.length (preads (pending w)) + connects_ok evs)%nat)).
  - intros w. simpl. lia.
  - intros w ev evs w1 l1 w2 l2 Hs _ IH.
    pose proof (step_read_count _ _ _ _ Hs) as H1.
    rewrite read_failures_cons, connects_ok_cons. lia.
Qed.

Lemma single_reader_length (w : world) :
  single_reader w -> (List.length (preads (pending w)) <= 1)%nat.
Proof.
  unfold single_reader.
  destruct (preads (pending w)) as [|x [|y l]]; simpl; try lia.
  destruct x; contradiction.
Qed.

Lemma app_cons_single {A} (x y : A) (l1 l2 : list A) :
  (List.length (l1 ++ x :: l2) <= 1)%nat -> l1 = [] /\ l2 = [].
Proof.
  rewrite length_app. simpl.
  destruct l1; destruct l2; simpl; intros; try lia; auto.
Qed.

Lemma step_single_reader (w w' : world) (ev : event) (l : list action) :
  single_reader w ->
  (List.length (preads (pending w)) + connects_ok [ev] <= 1)%nat ->
  realloc_succeeds_at (in_data_size_ (obj w)) ev = true ->
  step w ev = Some (w', l) ->
  single_reader w'.
Proof.
  intros Hsr Hcount Hre H.
  pose proof (single_reader_length _ Hsr) as Hlen.
  destruct (step_reads _ _ _ _ H) as (pr & Hp & Hpr).
  destruct (step_log _ _ _ _ H) as (Ho & _).
  pose proof (handler_buffer ev (obj w)) as Hb. cbv zeta in Hb.
  rewrite <- Ho in Hb.
  rewrite handler_reads, <- Ho in Hp.
  unfold single_reader in *. rewrite Hp.
  destruct ev; cbn [completes is_read connects_ok realloc_succeeds_at] in *;
    try (subst pr; rewrite app_nil_r; destruct Hb as (-> & ->); exact Hsr).
  - (* connect completion *)
    subst pr. destruct Hb as (-> & ->).
    destruct (is_ok err); [|rewrite app_nil_r; exact Hsr].
    destruct (preads (pending w)); simpl in *; [exact I|lia].
  - (* header completion *)
    destruct Hpr as (l1 & l2 & E & ->). rewrite E in Hlen.
    destruct (app_cons_single PReadHeader PReadHeader _ _ Hlen) as (-> & ->).
    destruct (is_ok err) eqn:Hok; simpl; [|exact I].
    split; [reflexivity|].
    destruct Hb as (-> & _). cbn [andb] in *.
    destruct (N.ltb_spec (in_data_size_ (obj w)) (ntohl (payload_size hdr)));
      simpl in *; [rewrite Hre|]; lia.
  - (* payload completion *)
    destruct Hpr as (l1 & l2 & E & ->). rewrite E in Hlen.
    destruct (app_cons_single (PReadPayload buf len) PReadHeader _ _ Hlen)
      as (-> & ->).
    destruct (is_ok err); simpl; exact I.
Qed.

Lemma run_single_reader (evs : list event) :
  forall (w w' : world) (tr : list action),
    run w evs = Some (w', tr) ->
    single_reader w ->
    (List.length (preads (pending w)) + connects_ok evs <= 1)%nat ->
    reallocs_succeed (in_data_size_ (obj w)) evs = true ->
    single_reader w'.
Proof.
  apply (run_induction
           (fun w evs w' _ =>
              single_reader w ->
              (List.length (preads (pending w)) + connects_ok evs <= 1)%nat ->
              reallocs_succeed (in_data_size_ (obj w)) evs = true ->
              single_reader w')).
  - auto.
  - intros w ev evs0 w1 l1 w2 l2 Hs _ IH Hsr Hcount Hre.
    rewrite connects_ok_cons in Hcount.
    cbn [reallocs_succeed] in Hre. apply andb_true_iff in Hre.
    destruct Hre as (Hre1 & Hre2).
    pose proof (step_read_count _ _ _ _ Hs) as Hc.
    destruct (step_log _ _ _ _ Hs) as (Ho & _).
    rewrite <- handler_capacity_after, <- Ho in Hre2.
    apply IH; [|lia|exact Hre2].
    apply (step_single_reader w w1 ev l1 Hsr); [lia|exact Hre1|exact Hs].
Qed.

(** X11: on a client that connected at most once, and as long as no
    [realloc] fails (a [realloc] is called, and can fail, only for a header
    read without error whose payload size exceeds the capacity at that
    time), at most one read is outstanding at any time, and an outstanding
    payload read goes to the current input buffer with a length within its
    capacity. *)
Theorem one_reader_within_capacity (p : ptr) (evs : list event) (w : world)
    (tr : list action) :
  run (init p) evs = Some (w, tr) ->
  (connects_ok evs <= 1)%nat ->
  reallocs_succeed 1024 evs = true ->
  single_reader w.
Proof.
  intros H Hc Hre.
  apply (run_single_reader evs _ _ _ H); [exact I|exact Hc|exact Hre].
Qed.

(** ** Sequences of methods *)

Lemma step_completion (w : world) (ev : event) (op : pending_op) :
  completes ev = Some op ->
  In op (pending w) ->
  exists rest, step w ev = Some (fire ev (obj w) rest).
Proof.
  intros Hc Hin. unfold step. rewrite Hc.
  destruct (take_In _ _ Hin) as (rest & ->). eauto.
Qed.

Lemma step_pending (w w' : world) (ev : event) (l : list action) :
  step w ev = Some (w', l) ->
  exists rest, pending w' = rest ++ issued_ops l.
Proof.
  unfold step, fire. intros H.
  destruct (completes ev) as [op|].
  - destruct (take op (pending w)) as [rest|]; [|discriminate].
    injection H as <- <-. exists rest. reflexivity.
  - injection H as <- <-. exists (pending w). reflexivity.
Qed.

Lemma header_then_payload_read (c : client) (err : error_code)
    (hdr : frame_header_t) (r : ptr) :
  is_ok err = true ->
  let c' := exec (handler (ReadHeaderDone err hdr r)) c in
  let l := log (handler (ReadHeaderDone err hdr r)) c in
  issued_ops l = [PReadPayload (in_data_ c') (ntohl (payload_size hdr))] /\
  payload_reads_of l = [(in_data_ c', ntohl (payload_size hdr))] /\
  in_frame_header_ c' = hdr.
Proof.
  intros Hok. unfold_handler. simpl. rewrite Hok. simpl.
  case_tests; auto.
Qed.

(** X12: the receive cycle.  After a header completion without error,
    exactly one payload read is outstanding for it, into [in_data_] and of
    the length decoded from the header; its completion without error
    dispatches exactly one message, with the two tags of that header in
    host byte order and the content deserialized from that header and the
    buffer, and starts the next header read; it changes no member. *)
Theorem receive_cycle (w w1 : world) (err1 : error_code)
    (hdr : frame_header_t) (r : ptr) (l1 : list action) :
  step w (ReadHeaderDone err1 hdr r) = Some (w1, l1) ->
  is_ok err1 = true ->
  forall (err2 : error_code) (data : list byte),
    is_ok err2 = true ->
    payload_reads_of l1 = [(in_data_ (obj w1), ntohl (payload_size hdr))] /\
    exists w2,
      step w1 (ReadPayloadDone err2 (in_data_ (obj w1))
                 (ntohl (payload_size hdr)) data) =
        Some (w2,
              [SigRcvd (ntohs (component_id hdr)) (ntohs (msg_type hdr))
                 (deserialize hdr data);
               AsyncReadHeader]) /\
      obj w2 = obj w1 /\
      In PReadHeader (pending w2).
Proof.
  intros Hs Hok1 err2 data Hok2.
  destruct (step_log _ _ _ _ Hs) as (Ho & Hl).
  destruct (header_then_payload_read (obj w) err1 hdr r Hok1) as (Hi & Hp & Hh).
  rewrite <- Ho, <- Hl in Hi, Hp. rewrite <- Ho in Hh.
  split; [exact Hp|].
  destruct (step_pending _ _ _ _ Hs) as (rest & Hpend).
  rewrite Hi in Hpend.
  assert (In (PReadPayload (in_data_ (obj w1)) (ntohl (payload_size hdr)))
            (pending w1)) as Hin.
  { rewrite Hpend. apply in_or_app. right. left. reflexivity. }
  destruct (step_completion w1
              (ReadPayloadDone err2 (in_data_ (obj w1))
                 (ntohl (payload_size hdr)) data) _ eq_refl Hin)
    as (rest2 & Hs2).
  rewrite Hs2. unfold fire. unfold_handler. simpl. rewrite Hok2. simpl.
  rewrite Hh.
  eexists. split; [reflexivity|]. simpl. split; [reflexivity|].
  apply in_or_app. right. left. reflexivity.
Qed.


(** ** The outbound side does not depend on the connection *)

Lemma In_pwrites (e : QueueEntry) (l : list pending_op) :
  In e (pwrites l) -> In (PWrite e) l.
Proof.
  induction l as [|x l IH]; simpl; [auto|].
  destruct x; simpl; auto.
  intros [->|H]; auto.
Qed.

Lemma same_outbound_inv (w1 w2 : world) :
  same_outbound w1 w2 -> outbound_inv w1 -> outbound_inv w2.
Proof.
  intros (Hq & Ha & Hp) (I1 & I2 & I3). unfold outbound_inv.
  rewrite <- Hq, <- Ha, <- Hp. auto.
Qed.

Lemma step_same_outbound (w wf w1 wf1 : world) (ev : event)
    (l1 lf1 : list action) :
  outbound_inv w ->
  same_outbound w wf ->
  step w ev = Some (w1, l1) ->
  step wf ev = Some (wf1, lf1) ->
  same_outbound w1 wf1 /\
  writes_of l1 = writes_of lf1 /\
  deletes_of l1 = deletes_of lf1.
Proof.
  intros Hinv Hsim H Hf.
  pose proof (same_outbound_inv _ _ Hsim Hinv) as Hinvf.
  destruct Hsim as (Hq & Ha & Hp).
  destruct Hinv as (I1 & _). destruct Hinvf as (I1f & _).
  destruct (step_shape _ _ _ _ H) as (pw & Ho & Hl & Hpe & Hpw).
  destruct (step_shape _ _ _ _ Hf) as (pwf & Hof & Hlf & Hpef & Hpwf).
  assert (deletes_of l1 = deletes_of lf1) as Hd
    by (rewrite Hl, Hlf, !handler_deletes; reflexivity).
  pose proof (handler_outbound ev (obj w)) as Hh.
  pose proof (handler_outbound ev (obj wf)) as Hhf.
  cbv zeta in Hh, Hhf.
  rewrite <- Ho, <- Hl in Hh. rewrite <- Hof, <- Hlf in Hhf.
  rewrite <- Hq, <- Ha in Hhf.
  unfold same_outbound. rewrite Hpe, Hpef.
  destruct ev;
    try (destruct Hh as (-> & -> & ->); destruct Hhf as (-> & -> & ->);
         subst pw pwf; rewrite Hp; auto).
  - destruct Hh as (-> & Hh). destruct Hhf as (-> & Hhf). subst pw pwf.
    destruct (outbound_active_ (obj w));
      destruct Hh as (-> & ->); destruct Hhf as (-> & ->);
      rewrite Hp, Hq; auto.
  - destruct (length_le_1_S _ _ I1 Hpw) as (-> & _).
    destruct (length_le_1_S _ _ I1f Hpwf) as (-> & _).
    destruct (is_ok err).
    + destruct (outbound_queue_ (obj w)) as [|front rest];
        destruct Hh as (-> & -> & ->); destruct Hhf as (-> & -> & ->); auto.
    + destruct Hh as (-> & -> & ->); destruct Hhf as (-> & -> & ->); auto.
Qed.

Lemma step_not_outbound (w w1 : world) (ev : event) (l1 : list action) :
  is_outbound ev = false ->
  step w ev = Some (w1, l1) ->
  same_outbound w1 w /\ writes_of l1 = [] /\ deletes_of l1 = [].
Proof.
  intros Hev H.
  destruct (step_shape _ _ _ _ H) as (pw & Ho & Hl & Hpe & Hpw).
  assert (deletes_of l1 = write_completions [ev]) as Hd
    by (rewrite Hl; apply handler_deletes).
  pose proof (handler_outbound ev (obj w)) as Hh. cbv zeta in Hh.
  rewrite <- Ho, <- Hl in Hh. unfold same_outbound. rewrite Hpe, Hd.
  destruct ev; try discriminate;
    destruct Hh as (-> & -> & ->); subst pw; rewrite app_nil_r; auto.
Qed.

Lemma step_outbound_enabled (w wf w1 : world) (ev : event) (l1 : list action) :
  is_outbound ev = true ->
  same_outbound w wf ->
  step w ev = Some (w1, l1) ->
  exists wf1 lf1, step wf ev = Some (wf1, lf1).
Proof.
  intros Hev (_ & _ & Hp) H.
  destruct ev; try discriminate.
  - unfold step. cbn [completes].
    destruct (fire (CallSend comp_id mtype m) (obj wf) (pending wf))
      as [wf1 lf1]. exists wf1, lf1. reflexivity.
  - pose proof (step_write_In _ _ _ _ _ _ H) as Hin.
    rewrite Hp in Hin. apply In_pwrites in Hin.
    destruct (step_completion wf (WriteDone err bytes_transferred entry) _
                eq_refl Hin) as (rest & ->).
    destruct (fire (WriteDone err bytes_transferred entry) (obj wf) rest)
      as [wf1 lf1]. exists wf1, lf1. reflexivity.
Qed.

Lemma run_same_outbound (evs : list event) :
  forall (w w' : world) (tr : list action),
    run w evs = Some (w', tr) ->
    forall wf,
      outbound_inv w ->
      same_outbound w wf ->
      exists wf' trf,
        run wf (filter is_outbound evs) = Some (wf', trf) /\
        same_outbound w' wf' /\
        writes_of trf = writes_of tr /\
        deletes_of trf = deletes_of tr.
Proof.
  apply (run_induction
           (fun w evs w' tr =>
              forall wf,
                outbound_inv w ->
                same_outbound w wf ->
                exists wf' trf,
                  run wf (filter is_outbound evs) = Some (wf', trf) /\
                  same_outbound w' wf' /\
                  writes_of trf = writes_of tr /\
                  deletes_of trf = deletes_of tr)).
  - intros w wf _ Hsim. exists wf, []. simpl. auto.
  - intros w ev evs0 w1 l1 w2 l2 Hs _ IH wf Hinv Hsim.
    destruct (step_outbound _ _ _ _ Hinv Hs) as (Hinv1 & _).
    cbn [filter]. destruct (is_outbound ev) eqn:Hev.
    + destruct (step_outbound_enabled _ _ _ _ _ Hev Hsim Hs) as (wf1 & lf1 & Hf).
      destruct (step_same_outbound _ _ _ _ _ _ _ Hinv Hsim Hs Hf)
        as (Hsim1 & Hw & Hd).
      destruct (IH wf1 Hinv1 Hsim1) as (wf' & trf & Hr & Hsim' & Hw' & Hd').
      exists wf', (lf1 ++ trf). cbn [run]. rewrite Hf, Hr.
      rewrite !writes_of_app, !deletes_of_app, Hw, Hd, Hw', Hd'. auto.
    + destruct (step_not_outbound _ _ _ _ Hev Hs) as (Hsim1 & Hw & Hd).
      assert (same_outbound w1 wf) as Hsim1'.
      { destruct Hsim1 as (A & B & C). destruct Hsim as (A' & B' & C').
        unfold same_outbound. rewrite A, B, C. auto. }
      destruct (IH wf Hinv1 Hsim1') as (wf' & trf & Hr & Hsim' & Hw' & Hd').
      exists wf', trf. rewrite writes_of_app, deletes_of_app, Hw, Hd. auto.
Qed.

(** X14: the outbound side does not depend on the connection.  Dropping
    from a run every event but the sends and the write completions leaves a
    run of the client that starts the same writes and destroys the same
    entries in the same order and ends with the same queue, the same
    in-flight flag and the same outstanding write: [send] and [handle_write]
    never look at [connected_] or at the socket, and no other method touches
    the queue or the flag. *)
Theorem outbound_independent_of_connection (p : ptr) (evs : list event)
    (w : world) (tr : list action) :
  run (init p) evs = Some (w, tr) ->
  exists w2 tr2,
    run (init p) (filter is_outbound evs) = Some (w2, tr2) /\
    writes_of tr2 = writes_of tr /\
    deletes_of tr2 = deletes_of tr /\
    outbound_queue_ (obj w2) = outbound_queue_ (obj w) /\
    outbound_active_ (obj w2) = outbound_active_ (obj w) /\
    pwrites (pending w2) = pwrites (pending w).
Proof.
  intros H.
  assert (same_outbound (init p) (init p)) as Hsim by (repeat split).
  destruct (run_same_outbound evs _ _ _ H (init p) (init_outbound_inv p) Hsim)
    as (w2 & tr2 & Hr & (Hq & Ha & Hp) & Hw & Hd).
  exists w2, tr2. repeat split; auto.
Qed.

(** ** Byte order of the header fields *)

Lemma lor_high_low (a b n : N) :
  a < 2 ^ n -> N.lor (b * 2 ^ n) a = b * 2 ^ n + a.
Proof.
  intros Ha.
  assert (N.land (b * 2 ^ n) a = 0) as Hd.
  { apply N.bits_inj. intros i. rewrite N.land_spec, N.bits_0.
    destruct (N.lt_ge_cases i n) as [Hi|Hi].
    - rewrite N.mul_pow2_bits_low by assumption. reflexivity.
    - assert (N.testbit a i = false) as ->.
      { destruct (N.eq_dec a 0) as [->|Hne]; [apply N.bits_0|].
        apply N.bits_above_log2.
        assert (N.log2 a < n) by (apply N.log2_lt_pow2; lia). lia. }
      apply Bool.andb_false_r. }
  rewrite <- (N.lxor_lor _ _ Hd). symmetry. apply N.add_nocarry_lxor. exact Hd.
Qed.

Lemma land_ff (y : N) : N.land y 0xff = y mod 2 ^ 8.
Proof. change 0xff with (N.ones 8). apply N.land_ones. Qed.

Lemma land_ff00 (y : N) : N.land y 0xff00 = ((y / 2 ^ 8) mod 2 ^ 8) * 2 ^ 8.
Proof.
  rewrite <- N.shiftr_div_pow2, <- N.land_ones, <- N.shiftl_mul_pow2.
  rewrite N.shiftl_land.
  change (N.shiftl (N.ones 8) 8) with 0xff00.
  apply N.bits_inj. intros i. rewrite !N.land_spec.
  destruct (N.lt_ge_cases i 8) as [Hi|Hi].
  - assert (N.testbit 0xff00 i = false) as ->.
    { change 0xff00 with (N.shiftl (N.ones 8) 8).
      apply N.shiftl_spec_low. assumption. }
    rewrite !Bool.andb_false_r. reflexivity.
  - rewrite N.shiftl_spec_high' by assumption.
    rewrite N.shiftr_spec'. replace (i - 8 + 8) with i by lia. reflexivity.
Qed.

(** [ntohl] of the host reading of four bytes in memory order is their
    big-endian value. *)
Lemma ntohl_bytes (b0 b1 b2 b3 : N) :
  b0 < 256 -> b1 < 256 -> b2 < 256 -> b3 < 256 ->
  ntohl (b0 + 256 * b1 + 65536 * b2 + 16777216 * b3) =
    16777216 * b0 + 65536 * b1 + 256 * b2 + b3.
Proof.
  intros H0 H1 H2 H3.
  set (x := b0 + 256 * b1 + 65536 * b2 + 16777216 * b3).
  assert (x mod 2 ^ 8 = b0) as E0.
  { symmetry. apply (N.mod_unique _ _ (b1 + 256 * b2 + 65536 * b3));
      change (2 ^ 8) with 256; subst x; lia. }
  assert (x / 2 ^ 8 = b1 + 256 * b2 + 65536 * b3) as D1.
  { symmetry. apply (N.div_unique _ _ _ b0);
      change (2 ^ 8) with 256; subst x; lia. }
  assert ((x / 2 ^ 8) mod 2 ^ 8 = b1) as E1.
  { rewrite D1. symmetry. apply (N.mod_unique _ _ (b2 + 256 * b3));
      change (2 ^ 8) with 256; lia. }
  assert ((x / 2 ^ 8) / 2 ^ 8 = b2 + 256 * b3) as D2.
  { rewrite D1. symmetry. apply (N.div_unique _ _ _ b1);
      change (2 ^ 8) with 256; lia. }
  assert (((x / 2 ^ 8) / 2 ^ 8) mod 2 ^ 8 = b2) as E2.
  { rewrite D2. symmetry. apply (N.mod_unique _ _ b3);
      change (2 ^ 8) with 256; lia. }
  assert (x / 2 ^ 24 = b3) as D3.
  { symmetry. apply (N.div_unique _ _ _ (b0 + 256 * b1 + 65536 * b2));
      change (2 ^ 24) with 16777216; subst x; lia. }
  unfold ntohl.
  rewrite !land_ff, !land_ff00, !N.shiftl_mul_pow2, !N.shiftr_div_pow2.
  rewrite E0, E1, E2, D3.
  rewrite (N.mod_small b3) by (change (2 ^ 8) with 256; lia).
  rewrite (lor_high_low b3 b2 8) by (change (2 ^ 8) with 256; lia).
  replace (b1 * 2 ^ 8 * 2 ^ 8) with (b1 * 2 ^ 16)
    by (change (2 ^ 8) with 256; change (2 ^ 16) with 65536; lia).
  rewrite (lor_high_low (b1 * 2 ^ 16) b0 24)
    by (change (2 ^ 16) with 65536; change (2 ^ 24) with 16777216; lia).
  replace (b0 * 2 ^ 24 + b1 * 2 ^ 16) with ((b0 * 2 ^ 8 + b1) * 2 ^ 16)
    by (change (2 ^ 8) with 256; change (2 ^ 16) with 65536;
        change (2 ^ 24) with 16777216; lia).
  rewrite (lor_high_low (b2 * 2 ^ 8 + b3) (b0 * 2 ^ 8 + b1) 16)
    by (change (2 ^ 8) with 256; change (2 ^ 16) with 65536; lia).
  change (2 ^ 8) with 256; change (2 ^ 16) with 65536. lia.
Qed.

Lemma ntohs_bytes (b0 b1 : N) :
  b0 < 256 -> b1 < 256 -> ntohs (b0 + 256 * b1) = 256 * b0 + b1.
Proof.
  intros H0 H1.
  set (x := b0 + 256 * b1).
  assert (x mod 2 ^ 8 = b0) as E0.
  { symmetry. apply (N.mod_unique _ _ b1);
      change (2 ^ 8) with 256; subst x; lia. }
  assert (x / 2 ^ 8 = b1) as D1.
  { symmetry. apply (N.div_unique _ _ _ b0);
      change (2 ^ 8) with 256; subst x; lia. }
  unfold ntohs.
  rewrite !land_ff, !N.shiftl_mul_pow2, !N.shiftr_div_pow2, E0, D1.
  rewrite (N.mod_small b1) by (change (2 ^ 8) with 256; lia).
  rewrite (lor_high_low b1 b0 8) by (change (2 ^ 8) with 256; lia).
  change (2 ^ 8) with 256. lia.
Qed.

(** X15: the header fields are read in network byte order.  When the eight
    header bytes, in the order of the wire, are [c0 c1 t0 t1 b0 b1 b2 b3],
    the payload read that [handle_read_header] starts has the length
    [b0 b1 b2 b3] read as a big-endian number, and [handle_read_message]
    dispatches the message with the tags [c0 c1] and [t0 t1] read as
    big-endian numbers. *)
Theorem header_fields_big_endian (c : client) (err1 err2 : error_code)
    (r : ptr) (data : list byte) (c0 c1 t0 t1 b0 b1 b2 b3 : N) :
  is_ok err1 = true ->
  is_ok err2 = true ->
  c0 < 256 -> c1 < 256 -> t0 < 256 -> t1 < 256 ->
  b0 < 256 -> b1 < 256 -> b2 < 256 -> b3 < 256 ->
  let hdr :=
    mk_frame_header (c0 + 256 * c1) (t0 + 256 * t1)
                    (b0 + 256 * b1 + 65536 * b2 + 16777216 * b3) in
  let c' := exec (handler (ReadHeaderDone err1 hdr r)) c in
  payload_reads_of (log (handler (ReadHeaderDone err1 hdr r)) c) =
    [(in_data_ c', 16777216 * b0 + 65536 * b1 + 256 * b2 + b3)] /\
  rcvds_of (log (handle_read_message err2 data) c') =
    [(256 * c0 + c1, 256 * t0 + t1, deserialize hdr data)].
Proof.
  intros Hok1 Hok2 Hc0 Hc1 Ht0 Ht1 Hb0 Hb1 Hb2 Hb3 hdr c'.
  destruct (header_then_payload_read c err1 hdr r Hok1) as (_ & Hp & Hh).
  fold c' in Hp, Hh. split.
  - rewrite Hp. subst hdr. cbn [payload_size].
    rewrite ntohl_bytes by assumption. reflexivity.
  - unfold log, handle_read_message, bind, gets, sig_rcvd_, start_recv, emit.
    rewrite Hok2. simpl. rewrite Hh. subst hdr. cbn [component_id msg_type].
    rewrite !ntohs_bytes by assumption. reflexivity.
Qed.

End RunProperties.

(** * The further properties on concrete runs *)

Lemma one_write_in_flight_witness :
  run (init 0x1000) three_sends =
    Some (fst three_sends_result, snd three_sends_result) /\
  pwrites (pending (fst three_sends_result)) = [entryA] /\
  ((List.length (pwrites (pending (fst three_sends_result))) <= 1)%nat /\
   (pwrites (pending (fst three_sends_result)) <> [] ->
    outbound_active_ (obj (fst three_sends_result)) = true) /\
   (outbound_queue_ (obj (fst three_sends_result)) <> [] ->
    outbound_active_ (obj (fst three_sends_result)) = true)).
Proof.
  split; [reflexivity|]. split; [reflexivity|].
  apply (one_write_in_flight 0x1000 three_sends (fst three_sends_result)
           (snd three_sends_result) eq_refl).
Defined.

Lemma queue_is_drained_witness :
  run (init 0x1000) three_sends =
    Some (fst three_sends_result, snd three_sends_result) /\
  writes_succeed three_sends = true /\
  outbound_queue_ (obj (fst three_sends_result)) = [entryB; entryC] /\
  ((outbound_active_ (obj (fst three_sends_result)) = true <->
    exists e, pwrites (pending (fst three_sends_result)) = [e]) /\
   (outbound_queue_ (obj (fst three_sends_result)) <> [] ->
    exists e, pwrites (pending (fst three_sends_result)) = [e]) /\
   (pwrites (pending (fst three_sends_result)) = [] ->
    outbound_queue_ (obj (fst three_sends_result)) = [])).
Proof.
  split; [reflexivity|]. split; [reflexivity|]. split; [reflexivity|].
  apply (queue_is_drained 0x1000 three_sends (fst three_sends_result)
           (snd three_sends_result) eq_refl eq_refl).
Defined.

Lemma entries_destroyed_on_completion_witness :
  run (init 0x1000) abc = Some (fst abc_result, snd abc_result) /\
  deletes_of (snd abc_result) = [entryA; entryB; entryC] /\
  (deletes_of (snd abc_result) = write_completions abc /\
   deletes_of (snd abc_result) ++ pwrites (pending (fst abc_result)) =
     writes_of (snd abc_result)).
Proof.
  split; [reflexivity|]. split; [reflexivity|].
  apply (entries_destroyed_on_completion 0x1000 abc (fst abc_result)
           (snd abc_result) eq_refl).
Defined.

Lemma mutex_discipline_witness :
  run w0 mixed = Some (fst mixed_result, snd mixed_result) /\
  mutex_after false (snd mixed_result) = Some false.
Proof.
  split; [reflexivity|].
  apply (mutex_discipline w0 (fst mixed_result) mixed (snd mixed_result)
           eq_refl).
Defined.

Lemma connected_flag_witness :
  run w0 mixed = Some (fst mixed_result, snd mixed_result) /\
  connected_after false mixed = false /\
  connected_ (obj (fst mixed_result)) =
    connected_after (connected_ (obj w0)) mixed.
Proof.
  split; [reflexivity|]. split; [reflexivity|].
  apply (connected_flag w0 (fst mixed_result) mixed (snd mixed_result)
           eq_refl).
Defined.

Lemma notifications_counted_witness :
  run w0 two_frames = Some (fst two_frames_result, snd two_frames_result) /\
  connects_ok two_frames = 1%nat /\
  payloads_ok two_frames = 2%nat /\
  (connects_of (snd two_frames_result) = connects_ok two_frames /\
   List.length (rcvds_of (snd two_frames_result)) = payloads_ok two_frames).
Proof.
  split; [reflexivity|]. split; [reflexivity|]. split; [reflexivity|].
  apply (notifications_counted w0 (fst two_frames_result) two_frames
           (snd two_frames_result) eq_refl).
Defined.

Lemma no_spurious_disconnected_witness :
  run w0 two_frames = Some (fst two_frames_result, snd two_frames_result) /\
  uneventful 1024 two_frames = true /\
  disconnects_of (snd two_frames_result) = [] /\
  run w0 frame_then_eof =
    Some (fst frame_then_eof_result, snd frame_then_eof_result) /\
  (disconnects_of (snd frame_then_eof_result) = [] <->
   uneventful (in_data_size_ (obj w0)) frame_then_eof = true) /\
  run w0 mixed = Some (fst mixed_result, snd mixed_result) /\
  uneventful 1024 mixed = false /\
  (disconnects_of (snd mixed_result) = [] <->
   uneventful (in_data_size_ (obj w0)) mixed = true).
Proof.
  split; [reflexivity|]. split; [reflexivity|].
  split.
  - apply (no_spurious_disconnected w0 (fst two_frames_result) two_frames
             (snd two_frames_result) eq_refl). reflexivity.
  - split; [reflexivity|]. split.
    + apply (no_spurious_disconnected w0 (fst frame_then_eof_result)
               frame_then_eof (snd frame_then_eof_result) eq_refl).
    + split; [reflexivity|]. split; [reflexivity|].
      apply (no_spurious_disconnected w0 (fst mixed_result) mixed
               (snd mixed_result) eq_refl).
Defined.

Lemma capacity_bounds_witness :
  run (init 0x1000) two_frames =
    Some (fst two_frames_result, snd two_frames_result) /\
  1024 <= in_data_size_ (obj (fst two_frames_result)) < 2 ^ 32.
Proof.
  split; [reflexivity|].
  apply (capacity_bounds 0x1000 two_frames (fst two_frames_result)
           (snd two_frames_result) eq_refl).
Defined.

Lemma buffer_never_null_witness :
  0x1000 <> NULL /\
  run (init 0x1000) two_frames =
    Some (fst two_frames_result, snd two_frames_result) /\
  in_data_ (obj (fst two_frames_result)) <> NULL.
Proof.
  assert (H : 0x1000 <> NULL) by discriminate.
  split; [exact H|]. split; [reflexivity|].
  apply (buffer_never_null 0x1000 two_frames (fst two_frames_result)
           (snd two_frames_result) H eq_refl).
Defined.

Lemma receive_loops_counted_witness :
  run (init 0x1000) frame_then_eof =
    Some (fst frame_then_eof_result, snd frame_then_eof_result) /\
  read_failures frame_then_eof = 1%nat /\
  (List.length (preads (pending (fst frame_then_eof_result))) +
   read_failures frame_then_eof = connects_ok frame_then_eof)%nat.
Proof.
  split; [reflexivity|]. split; [reflexivity|].
  apply (receive_loops_counted 0x1000 frame_then_eof
           (fst frame_then_eof_result) (snd frame_then_eof_result) eq_refl).
Defined.

Lemma one_reader_within_capacity_witness :
  run (init 0x1000) two_headers =
    Some (fst two_headers_result, snd two_headers_result) /\
  (connects_ok two_headers <= 1)%nat /\
  reallocs_succeed 1024 two_headers = true /\
  preads (pending (fst two_headers_result)) = [PReadPayload 0x2000 5] /\
  in_data_size_ (obj (fst two_headers_result)) = 4096 /\
  single_reader (fst two_headers_result).
Proof.
  assert (H : (connects_ok two_headers <= 1)%nat) by (vm_compute; lia).
  split; [reflexivity|]. split; [exact H|]. split; [reflexivity|].
  split; [reflexivity|]. split; [reflexivity|].
  apply (one_reader_within_capacity 0x1000 two_headers
           (fst two_headers_result) (snd two_headers_result) eq_refl H eq_refl).
Defined.

Lemma receive_cycle_witness :
  step w_connected (ReadHeaderDone no_error hdr4096 0x2000) =
    Some (w_payload, [Realloc 0x1000 4096; AsyncReadPayload 0x2000 4096]) /\
  is_ok no_error = true /\
  forall (err2 : error_code) (data : list byte),
    is_ok err2 = true ->
    payload_reads_of [Realloc 0x1000 4096; AsyncReadPayload 0x2000 4096] =
      [(in_data_ (obj w_payload), ntohl (payload_size hdr4096))] /\
    exists w2,
      step w_payload
        (ReadPayloadDone err2 (in_data_ (obj w_payload))
           (ntohl (payload_size hdr4096)) data) =
        Some (w2,
              [SigRcvd (ntohs (component_id hdr4096)) (ntohs (msg_type hdr4096))
                 (deserialize hdr4096 data);
               AsyncReadHeader]) /\
      obj w2 = obj w_payload /\
      In PReadHeader (pending w2).
Proof.
  split; [reflexivity|]. split; [reflexivity|].
  apply (receive_cycle w_connected w_payload no_error hdr4096 0x2000
           [Realloc 0x1000 4096; AsyncReadPayload 0x2000 4096]
           eq_refl eq_refl).
Defined.


Lemma outbound_independent_of_connection_witness :
  run (init 0x1000) mixed = Some (fst mixed_result, snd mixed_result) /\
  writes_of (snd mixed_result) = [entryA; entryB] /\
  exists w2 tr2,
    run (init 0x1000) (filter is_outbound mixed) = Some (w2, tr2) /\
    writes_of tr2 = writes_of (snd mixed_result) /\
    deletes_of tr2 = deletes_of (snd mixed_result) /\
    outbound_queue_ (obj w2) = outbound_queue_ (obj (fst mixed_result)) /\
    outbound_active_ (obj w2) = outbound_active_ (obj (fst mixed_result)) /\
    pwrites (pending w2) = pwrites (pending (fst mixed_result)).
Proof.
  split; [reflexivity|]. split; [reflexivity|].
  apply (outbound_independent_of_connection 0x1000 mixed (fst mixed_result)
           (snd mixed_result) eq_refl).
Defined.

Lemma header_fields_big_endian_witness :
  is_ok no_error = true /\
  (1 < 256 /\ 0 < 256 /\ 3 < 256 /\ 16 < 256) /\
  (let hdr :=
     mk_frame_header (0 + 256 * 1) (0 + 256 * 3)
                     (0 + 256 * 0 + 65536 * 16 + 16777216 * 0) in
   let c' :=
     exec (handler (ReadHeaderDone no_error hdr 0x2000)) (obj w_connected) in
   payload_reads_of
     (log (handler (ReadHeaderDone no_error hdr 0x2000)) (obj w_connected)) =
     [(in_data_ c', 16777216 * 0 + 65536 * 0 + 256 * 16 + 0)] /\
   rcvds_of (log (handle_read_message no_error msgA) c') =
     [(256 * 0 + 1, 256 * 0 + 3, deserialize hdr msgA)]).
Proof.
  assert (H1 : 1 < 256) by reflexivity.
  assert (H0 : 0 < 256) by reflexivity.
  assert (H3 : 3 < 256) by reflexivity.
  assert (H16 : 16 < 256) by reflexivity.
  split; [reflexivity|]. split; [auto|].
  apply (header_fields_big_endian (obj w_connected) no_error no_error 0x2000
           msgA 0 1 0 3 0 0 16 0 eq_refl eq_refl H0 H1 H0 H3 H0 H0 H16 H0).
Defined.
